(** * Email confirmation worker (email_confirm.py)

    A shallow embedding of [MailWorker]: the two dictionaries it owns, the
    three task handlers, and the batch sender that runs beside them on the
    same event loop.

    Conventions.
    - [time.time()] is a float; it is read here as an exact rational and
      handed to each operation as [now].  Rounding of float subtraction is
      not modelled, truncation by [int(...)] is.
    - [secrets.token_urlsafe(32)] is handed to the request handler as [tok],
      the string the generator returns if the handler gets as far as
      drawing one.
    - The record dictionaries are Python objects shared between [_status]
      and the list the batch sender builds, so they live in a store ([heap])
      and are referred to by their position in it. *)

From Stdlib Require Import QArith Qminmax ZArith.
From stdpp Require Import gmap strings list fin_maps.

Local Open Scope Z_scope.

(** ** Configuration *)

Definition BATCH_INTERVAL : Z := 10.
Definition RESEND_WINDOW : Z := 30.
Definition BASE_URL : string := "https://example.com/confirm?token=".

(** ** Python values *)

(** [int(x)] on a float: truncation toward zero. *)
Definition int_of_float (x : Q) : Z := Z.quot (Qnum x) (Zpos (Qden x)).

(** [x < y] on floats. *)
Definition float_lt (x y : Q) : bool := negb (Qle_bool y x).

(** Truth value of a [str]: every string but the empty one. *)
Definition str_truthy (s : string) : bool := negb (String.eqb s "").

(** ** Insertion-ordered dictionaries

    [_status] is enumerated with [.items()], so it is kept as the list of its
    bindings in insertion order.  Keys are unique in every dictionary the
    worker builds ([dict_set] never adds a second binding for a key). *)

Section Dict.
Context {V : Type}.

Fixpoint dict_get (k : string) (d : list (string * V)) : option V :=
  match d with
  | [] => None
  | (k', v) :: d' => if String.eqb k' k then Some v else dict_get k d'
  end.

(** [d[k] = v]: an existing key keeps its place, a new one goes last. *)
Fixpoint dict_set (k : string) (v : V) (d : list (string * V))
  : list (string * V) :=
  match d with
  | [] => [(k, v)]
  | (k', v') :: d' =>
      if String.eqb k' k then (k, v) :: d' else (k', v') :: dict_set k v d'
  end.

(** [d.pop(k, None)], keeping only the dictionary. *)
Fixpoint dict_pop (k : string) (d : list (string * V)) : list (string * V) :=
  match d with
  | [] => []
  | (k', v) :: d' =>
      if String.eqb k' k then dict_pop k d' else (k', v) :: dict_pop k d'
  end.
End Dict.

(** ** Data model *)

(** The dictionary [{"sent", "ts", "confirmed", "token"}] held per e-mail. *)
Record Rec := mkRec {
  sent : bool;
  ts : Q;
  confirmed : bool;
  token : string
}.

Definition set_confirmed (r : Rec) : Rec :=
  {| sent := sent r; ts := ts r; confirmed := true; token := token r |}.

Definition set_sent (now : Q) (r : Rec) : Rec :=
  {| sent := true; ts := now; confirmed := confirmed r; token := token r |}.

(** Identity of a record dictionary: its index in the store. *)
Abbreviation loc := nat (only parsing).

Record MailWorker := mkWorker {
  heap : list Rec;
  _status : list (string * loc);
  _token_map : gmap string string
}.

(** [MailWorker.__init__]. *)
Definition init : MailWorker :=
  {| heap := []; _status := []; _token_map := ∅ |}.

(** [self._status.get(email)], followed to the record it refers to. *)
Definition status_get (w : MailWorker) (email : string) : option (loc * Rec) :=
  match dict_get email (_status w) with
  | Some l => match heap w !! l with
              | Some r => Some (l, r)
              | None => None
              end
  | None => None
  end.

(** The answer of a status task: [{"sent", "timer", "confirmed"}]. *)
Record Ans := mkAns {
  ans_sent : Z;
  ans_timer : Z;
  ans_confirmed : Z
}.

(** ** Task handlers *)

(** Lines 93-98: a new record dictionary is built and stored under the
    address, the token is indexed, the reply is [True]. *)
Definition store_new (w : MailWorker) (email tok : string) : MailWorker * bool :=
  ({| heap := heap w ++ [ {| sent := false; ts := 0%Q;
                             confirmed := false; token := tok |} ];
      _status := dict_set email (length (heap w)) (_status w);
      _token_map := <[tok := email]> (_token_map w) |}, true).

Definition pop_token (w : MailWorker) (tok : string) : MailWorker :=
  {| heap := heap w; _status := _status w;
     _token_map := delete tok (_token_map w) |}.

Definition _handle_request (w : MailWorker) (email : string) (now : Q)
    (tok : string) : MailWorker * bool :=
  match status_get w email with
  | Some (_, rec) =>
      if confirmed rec then (w, true)
      else if sent rec && float_lt (now - ts rec) (inject_Z RESEND_WINDOW)
      then (w, false)
      else store_new (pop_token w (token rec)) email tok
  | None => store_new w email tok
  end.

Definition _cleanup (w : MailWorker) (email tok : string) : MailWorker :=
  {| heap := heap w;
     _status := dict_pop email (_status w);
     _token_map := delete tok (_token_map w) |}.

Definition remain_of (rec : Rec) (now : Q) : Z :=
  if sent rec
  then Z.max 0 (RESEND_WINDOW - int_of_float (now - ts rec))
  else 0.

Definition _handle_status (w : MailWorker) (email : string) (now : Q)
    : MailWorker * option Ans :=
  match status_get w email with
  | None => (w, None)
  | Some (_, rec) =>
      let ans := {| ans_sent := Z.b2z (sent rec);
                    ans_timer := remain_of rec now;
                    ans_confirmed := Z.b2z (confirmed rec) |} in
      (if confirmed rec then _cleanup w email (token rec) else w, Some ans)
  end.

Definition _handle_confirm (w : MailWorker) (tok : string)
    : MailWorker * bool :=
  let popped := _token_map w !! tok in
  let w1 := pop_token w tok in
  match popped with
  | None => (w1, false)
  | Some email =>
      if negb (str_truthy email) then (w1, false)
      else match status_get w1 email with
           | Some (l, rec) =>
               ({| heap := <[l := set_confirmed rec]> (heap w1);
                   _status := _status w1;
                   _token_map := _token_map w1 |}, true)
           | None => (w1, false)
           end
  end.

(** ** Batch sender *)

(** The comprehension of lines 131-132 over [self._status.items()]. *)
Definition unsent (h : list Rec) (item : string * loc) : bool :=
  match h !! item.2 with
  | Some r => negb (sent r) && negb (confirmed r)
  | None => false
  end.

Definition select_batch (w : MailWorker) : list (string * loc) :=
  List.filter (unsent (heap w)) (_status w).

(** Lines 137-139: every record dictionary in the batch is updated in place. *)
Definition mark_batch (now : Q) (batch : list (string * loc)) (h : list Rec)
    : list Rec :=
  fold_left (fun h' (item : string * loc) => alter (set_sent now) item.2 h')
            batch h.

(** The parts of a confirmation message that vary: the address the message
    is built for, which is the value assigned to its [To] header, and the
    link.  What the library makes of the header when it parses it is not
    followed here. *)
Record EmailMessage := mkMsg {
  msg_to : string;
  msg_link : string
}.

(** [_build_message]: [to_ok email] tells whether the library accepts
    [msg["To"] = email]; it raises for a value with a line break and for
    some malformed addresses, and then no message is built. *)
Definition _build_message (to_ok : string -> bool) (email tok : string)
    : option EmailMessage :=
  if to_ok email
  then Some {| msg_to := email; msg_link := BASE_URL +:+ tok |}
  else None.

(** How an awaited call inside the [try] of lines 147-150 ends: it returns,
    it raises an [Exception], which is caught and logged, or it raises
    something [except Exception] lets through, such as [CancelledError]. *)
Inductive Outcome :=
| Returns
| Raises
| Escapes.

(** What surrounds one [_send_batch]: the e-mail library ([to_header], the
    [to_ok] of [_build_message]) and the mail server.  For [connect],
    [login] and [quit], whether the call returns ([true]) or raises
    ([false]); [send_message] lists the outcomes of the successive
    [smtp.send_message] calls, a call past the end of the list returns. *)
Record SMTP := mkSMTP {
  to_header : string -> bool;
  connect : bool;
  login : bool;
  send_message : list Outcome;
  quit : bool
}.

Record SendResult := mkSendResult {
  delivered : list EmailMessage; (* messages whose [send_message] returned *)
  printed : list string;      (* per logged "SMTP error:", the address *)
  returned : bool             (* [false]: an exception left [_send_batch] *)
}.

Definition token_at (h : list Rec) (l : loc) : string :=
  match h !! l with Some r => token r | None => "" end.

(** The [for] loop of lines 145-150.  A failed [send_message] is caught and
    logged and the loop goes on; an exception from [_build_message], which
    is called outside the [try], or one that [except Exception] lets
    through, ends the loop and leaves [_send_batch]. *)
Fixpoint send_items (to_ok : string -> bool) (h : list Rec)
    (outcomes : list Outcome) (batch : list (string * loc)) : SendResult :=
  match batch with
  | [] => {| delivered := []; printed := []; returned := true |}
  | (email, l) :: batch' =>
      match _build_message to_ok email (token_at h l) with
      | None => {| delivered := []; printed := []; returned := false |}
      | Some msg =>
          match hd Returns outcomes with
          | Returns =>
              let rest := send_items to_ok h (tl outcomes) batch' in
              {| delivered := msg :: delivered rest;
                 printed := printed rest;
                 returned := returned rest |}
          | Raises =>
              let rest := send_items to_ok h (tl outcomes) batch' in
              {| delivered := delivered rest;
                 printed := email :: printed rest;
                 returned := returned rest |}
          | Escapes => {| delivered := []; printed := []; returned := false |}
          end
      end
  end.

(** [_send_batch] returns when the connection, the login, the whole loop
    and the closing do; [quit] is not reached when the loop is left by an
    exception. *)
Definition _send_batch (smtp : SMTP) (h : list Rec)
    (batch : list (string * loc)) : SendResult :=
  if connect smtp && login smtp
  then let sent_out :=
         send_items (to_header smtp) h (send_message smtp) batch in
       {| delivered := delivered sent_out; printed := printed sent_out;
          returned := returned sent_out && quit smtp |}
  else {| delivered := []; printed := []; returned := false |}.

(** ** The worker and its sender task on one event loop

    The handlers contain no [await], so each runs to completion.  The sender
    task is suspended either in [asyncio.sleep] or inside [_send_batch]; in
    the second case it holds the batch it selected, and tasks may be handled
    before it resumes. *)

Inductive Sender :=
| Sleeping
| Sending (batch : list (string * loc))
| Stopped.

Record System := mkSys {
  worker : MailWorker;
  sender : Sender
}.

Definition boot : System := {| worker := init; sender := Sleeping |}.

Inductive Event :=
| EvRequest (email : string) (now : Q) (tok : string)
| EvStatus (email : string) (now : Q)
| EvConfirm (tok : string)
| EvWake
| EvSendEnd (smtp : SMTP) (now : Q).

Inductive Output :=
| OutBool (b : bool)
| OutStatus (a : option Ans)
| OutSend (r : SendResult)
| OutNone.

(** [asyncio.sleep(BATCH_INTERVAL)] returns: lines 131-135 up to the
    suspension inside [_send_batch]. *)
Definition wake (s : System) : System :=
  match sender s with
  | Sleeping =>
      match select_batch (worker s) with
      | [] => s
      | batch => {| worker := worker s; sender := Sending batch |}
      end
  | _ => s
  end.

(** [_send_batch] finishes: lines 136-139 if it returned, the end of the
    sender task if it raised. *)
Definition send_end (smtp : SMTP) (now : Q) (s : System) : System * Output :=
  match sender s with
  | Sending batch =>
      let w := worker s in
      let res := _send_batch smtp (heap w) batch in
      if returned res
      then ({| worker := {| heap := mark_batch now batch (heap w);
                            _status := _status w;
                            _token_map := _token_map w |};
               sender := Sleeping |}, OutSend res)
      else ({| worker := w; sender := Stopped |}, OutSend res)
  | _ => (s, OutNone)
  end.

Definition lift {A} (s : System) (f : A -> Output) (r : MailWorker * A)
    : System * Output :=
  ({| worker := r.1; sender := sender s |}, f r.2).

Definition step (s : System) (ev : Event) : System * Output :=
  match ev with
  | EvRequest email now tok =>
      lift s OutBool (_handle_request (worker s) email now tok)
  | EvStatus email now =>
      lift s OutStatus (_handle_status (worker s) email now)
  | EvConfirm tok =>
      lift s OutBool (_handle_confirm (worker s) tok)
  | EvWake => (wake s, OutNone)
  | EvSendEnd smtp now => send_end smtp now s
  end.

Fixpoint run (s : System) (evs : list Event) : System * list Output :=
  match evs with
  | [] => (s, [])
  | ev :: evs' =>
      let r := step s ev in
      let rs := run r.1 evs' in
      (rs.1, r.2 :: rs.2)
  end.

(** One turn of the loop of [_batch_sender] with no task handled while the
    batch is being sent. *)
Definition _batch_sender_turn (smtp : SMTP) (now : Q) (s : System) : System :=
  (send_end smtp now (wake s)).1.

(** The tokens handed to the request tasks of a trace. *)
Fixpoint request_tokens (evs : list Event) : list string :=
  match evs with
  | [] => []
  | EvRequest _ _ tok :: evs' => tok :: request_tokens evs'
  | _ :: evs' => request_tokens evs'
  end.

(** The generator never returns the same token twice. *)
Definition fresh_tokens (evs : list Event) : bool :=
  bool_decide (NoDup (request_tokens evs)).

(** The task events, as opposed to the two resumptions of the sender. *)
Definition is_task (ev : Event) : bool :=
  match ev with
  | EvRequest _ _ _ | EvStatus _ _ | EvConfirm _ => true
  | EvWake | EvSendEnd _ _ => false
  end.

(** No request task of the trace is for [a]. *)
Definition never_requested (a : string) (evs : list Event) : bool :=
  forallb (fun ev => match ev with
                     | EvRequest email _ _ => negb (String.eqb email a)
                     | _ => true
                     end) evs.

(** ** The remaining time as the specification words it

    [max(0, resendWindow - (now - sentAt))], read over the same clock. *)
Definition spec_remaining (now sentAt : Q) : Q :=
  Qmax 0 (inject_Z RESEND_WINDOW - (now - sentAt)).

(** The record dictionary at [l] carries the mark of the cycle run at [now]. *)
Definition marked (now : Q) (h : list Rec) (l : loc) : Prop :=
  exists r, h !! l = Some r /\ sent r = true /\ ts r = now.

(** ** Invariants of the worker *)

(** The record an address currently has, if any. *)
Definition live (w : MailWorker) (a : string) : option Rec :=
  match status_get w a with
  | Some (_, r) => Some r
  | None => None
  end.

(** Every binding of [_status] refers to a record dictionary of the store,
    and no two addresses share one. *)
Record store_ok (h : list Rec) (d : list (string * loc)) : Prop := {
  ok_bound : forall a l, dict_get a d = Some l -> (l < length h)%nat;
  ok_alias : forall a a' l,
      dict_get a d = Some l -> dict_get a' d = Some l -> a = a'
}.

(** Every entry of the token index leads to a live, unconfirmed record that
    carries the token. *)
Definition index_sound (w : MailWorker) : Prop :=
  forall t a,
    _token_map w !! t = Some a ->
    exists r, live w a = Some r /\ token r = t /\ confirmed r = false.

Record Sound (w : MailWorker) : Prop := {
  sound_store : store_ok (heap w) (_status w);
  sound_index : index_sound w
}.

(** With [used] the tokens drawn so far: the live records carry drawn
    tokens, no two of them the same one, and the token of an unconfirmed
    record at a non-empty address is indexed under that address. *)
Record Complete (used : list string) (w : MailWorker) : Prop := {
  complete_used : forall a r, live w a = Some r -> In (token r) used;
  complete_unique : forall a a' r r',
      live w a = Some r -> live w a' = Some r' -> token r = token r' -> a = a';
  complete_live : forall a r,
      live w a = Some r -> confirmed r = false -> a <> "" ->
      _token_map w !! token r = Some a
}.

(** ** Scenarios used to exercise the statements below *)

(** A mail server on which every call returns. *)
Definition smtp_ok : SMTP :=
  {| to_header := fun _ => true; connect := true; login := true;
     send_message := []; quit := true |}.

(** A mail server that fails on the second item of a batch. *)
Definition smtp_second_fails : SMTP :=
  {| to_header := fun _ => true; connect := true; login := true;
     send_message := [Returns; Raises]; quit := true |}.

(** The e-mail library refuses a [To] header that starts with a line break;
    the mail server is never the problem. *)
Definition smtp_line_break : SMTP :=
  {| to_header := fun email => negb (String.prefix "
" email);
     connect := true; login := true; send_message := []; quit := true |}.

(** One request, not yet picked up by the sender. *)
Definition pending_unsent : System :=
  (run boot [EvRequest "a@x.com" 0%Q "t1"]).1.

(** One request, sent at time 10. *)
Definition pending_sent : System :=
  (run boot [EvRequest "a@x.com" 0%Q "t1"; EvWake; EvSendEnd smtp_ok 10%Q]).1.

(** One request, sent and then confirmed through its token. *)
Definition confirmed_once : System :=
  (run pending_sent [EvConfirm "t1"]).1.

(** Two requests waiting for the sender. *)
Definition two_unsent : System :=
  (run boot [EvRequest "a@x.com" 0%Q "t1"; EvRequest "b@x.com" 1%Q "t2"]).1.

(** ** Tasks, the producer and the worker loop *)

(** The dataclass [Task].  [fut] names the future the caller awaits; it is
    [None] unless the task is given one. *)
Module Task.
Record t := mk {
  op : string;
  email : string;
  token : option string;
  fut : option nat
}.
End Task.

(** [MailProducer._call]: the task put on the queue, with the future [fut]
    created for this call. *)
Definition _call (op email : string) (token : option string) (fut : nat)
    : Task.t :=
  {| Task.op := op; Task.email := email; Task.token := token;
     Task.fut := Some fut |}.

Definition email_confirm (email : string) (fut : nat) : Task.t :=
  _call "request" email None fut.

Definition is_confirm (email : string) (fut : nat) : Task.t :=
  _call "status" email None fut.

Definition mark_confirmed (token : string) (fut : nat) : Task.t :=
  _call "confirm" "" (Some token) fut.

(** [t.fut.set_result(v)].  [gone] are the futures their callers cancelled
    before the task is served, [resolved] the futures that have a result so
    far, with their values.  The call raises ([None]) when the task has no future, or when
    the future is cancelled or already has a result. *)
Definition set_result (gone : list nat) (resolved : list (nat * Output))
    (fut : option nat) (v : Output) : option (list (nat * Output)) :=
  match fut with
  | None => None
  | Some f =>
      if bool_decide (f ∈ gone) || bool_decide (f ∈ resolved.*1)
      then None
      else Some (resolved ++ [(f, v)])
  end.

(** One turn of the loop of [MailWorker.run] (lines 68-77): the task is
    handed to the handler its [op] names, none for any other [op].  The
    second component is [None] when [set_result] raised: nothing in [run]
    catches that.  The request and confirm handlers call [set_result] last,
    the status handler before its cleanup, which is then skipped.  A confirm
    task without a token pops nothing and answers [False]. *)
Definition run_task (gone : list nat) (w : MailWorker)
    (resolved : list (nat * Output)) (t : Task.t) (now : Q) (tok : string)
    : MailWorker * option (list (nat * Output)) :=
  if String.eqb (Task.op t) "request" then
    let r := _handle_request w (Task.email t) now tok in
    (r.1, set_result gone resolved (Task.fut t) (OutBool r.2))
  else if String.eqb (Task.op t) "status" then
    let r := _handle_status w (Task.email t) now in
    match set_result gone resolved (Task.fut t) (OutStatus r.2) with
    | Some resolved' => (r.1, Some resolved')
    | None => (w, None)
    end
  else if String.eqb (Task.op t) "confirm" then
    match Task.token t with
    | Some tk =>
        let r := _handle_confirm w tk in
        (r.1, set_result gone resolved (Task.fut t) (OutBool r.2))
    | None => (w, set_result gone resolved (Task.fut t) (OutBool false))
    end
  else (w, Some resolved).

(** The loop of [run] over the tasks waiting in the queue, oldest first,
    each with the clock reading and the token its handler would draw.  The
    result is the worker, the futures resolved, and whether the loop is
    still running. *)
Fixpoint serve (gone : list nat) (w : MailWorker)
    (resolved : list (nat * Output)) (q : list (Task.t * Q * string))
    : MailWorker * list (nat * Output) * bool :=
  match q with
  | [] => (w, resolved, true)
  | (t, now, tok) :: q' =>
      match run_task gone w resolved t now tok with
      | (w', Some resolved') => serve gone w' resolved' q'
      | (w', None) => (w', resolved, false)
      end
  end.

(** The [op] is one of the three that [run] dispatches on. *)
Definition known_op (t : Task.t) : bool :=
  String.eqb (Task.op t) "request" || String.eqb (Task.op t) "status"
  || String.eqb (Task.op t) "confirm".

(** The future of the task can take a result. *)
Definition answerable (gone : list nat) (resolved : list (nat * Output))
    (t : Task.t) : Prop :=
  exists f, Task.fut t = Some f /\ (f ∉ gone) /\ (f ∉ resolved.*1).

(** ** Vocabulary for the statements about runs *)

(** The links of all the messages delivered during a run. *)
Fixpoint delivered_links (outs : list Output) : list string :=
  match outs with
  | [] => []
  | OutSend r :: outs' => map msg_link (delivered r) ++ delivered_links outs'
  | _ :: outs' => delivered_links outs'
  end.

(** No output of the run is the end of a [_send_batch]. *)
Definition no_send (outs : list Output) : bool :=
  forallb (fun o => match o with OutSend _ => false | _ => true end) outs.

(** No status task of the trace is for [a]. *)
Definition no_status (a : string) (evs : list Event) : bool :=
  forallb (fun ev => match ev with
                     | EvStatus email _ => negb (String.eqb email a)
                     | _ => true
                     end) evs.

(** Status tasks for [a] at the given times, nothing in between. *)
Definition polls (a : string) (nows : list Q) : list Event :=
  map (EvStatus a) nows.

(** The address a task is about: the one it names, or the one its token is
    indexed under. *)
Definition about (w : MailWorker) (ev : Event) : option string :=
  match ev with
  | EvRequest email _ _ => Some email
  | EvStatus email _ => Some email
  | EvConfirm tok => _token_map w !! tok
  | _ => None
  end.

(** What the sender has mailed so far, against the store: [links] has no
    repetition, every link in it is the link of a record dictionary, and
    while the sender is alive that dictionary is marked sent; a batch being
    sent holds distinct dictionaries, none of them marked yet. *)
Record Mailed (s : System) (links : list string) : Prop := {
  mailed_nodup : NoDup links;
  mailed_heap : forall link,
      In link links ->
      exists l r, heap (worker s) !! l = Some r
                  /\ link = BASE_URL +:+ token r
                  /\ (sender s <> Stopped -> sent r = true);
  mailed_batch : forall batch,
      sender s = Sending batch ->
      NoDup batch.*2
      /\ forall e l, In (e, l) batch ->
                     exists r, heap (worker s) !! l = Some r /\ sent r = false
}.

(** The record dictionaries carry drawn tokens, each its own, and [_status]
    refers to each of them at most once. *)
Record Store (used : list string) (w : MailWorker) : Prop := {
  store_used : forall l r, heap w !! l = Some r -> In (token r) used;
  store_tokens : forall l l' r r',
      heap w !! l = Some r -> heap w !! l' = Some r' ->
      token r = token r' -> l = l';
  store_locs : NoDup (_status w).*2;
  store_bound : forall e l, In (e, l) (_status w) -> (l < length (heap w))%nat
}.

(** * Basic facts *)

Section DictFacts.
Context {V : Type}.
Implicit Types (d : list (string * V)) (k : string) (v : V).

Lemma dict_get_set_eq k v d : dict_get k (dict_set k v d) = Some v.
Proof.
  induction d as [|[k' v'] d IH]; simpl.
  - by rewrite String.eqb_refl.
  - destruct (String.eqb k' k) eqn:E; simpl.
    + by rewrite String.eqb_refl.
    + by rewrite E.
Qed.

Lemma dict_get_set_ne k k' v d :
  k <> k' -> dict_get k' (dict_set k v d) = dict_get k' d.
Proof.
  intros Hne. induction d as [|[k0 v0] d IH]; simpl.
  - by apply String.eqb_neq in Hne as ->.
  - destruct (String.eqb k0 k) eqn:E; simpl.
    + apply String.eqb_eq in E as ->.
      by apply String.eqb_neq in Hne as ->.
    + by rewrite IH.
Qed.

Lemma dict_get_pop_eq k d : dict_get k (dict_pop k d) = None.
Proof.
  induction d as [|[k' v'] d IH]; simpl; [done|].
  destruct (String.eqb k' k) eqn:E; simpl; [done|]. by rewrite E.
Qed.

Lemma dict_get_pop_ne k k' d :
  k <> k' -> dict_get k' (dict_pop k d) = dict_get k' d.
Proof.
  intros Hne. induction d as [|[k0 v0] d IH]; simpl; [done|].
  destruct (String.eqb k0 k) eqn:E; simpl.
  - apply String.eqb_eq in E as ->.
    by apply String.eqb_neq in Hne as ->.
  - by rewrite IH.
Qed.

Lemma dict_get_In k v d : dict_get k d = Some v -> In (k, v) d.
Proof.
  induction d as [|[k0 v0] d IH]; simpl; [done|].
  destruct (String.eqb k0 k) eqn:E.
  - apply String.eqb_eq in E as ->. intros [= ->]. by left.
  - intros H. right. by apply IH.
Qed.
End DictFacts.

Lemma float_lt_true x y : float_lt x y = true <-> (x < y)%Q.
Proof.
  unfold float_lt. rewrite negb_true_iff, <- not_true_iff_false, Qle_bool_iff.
  split; [apply Qnot_le_lt | apply Qlt_not_le].
Qed.

Lemma float_lt_false x y : float_lt x y = false <-> (y <= x)%Q.
Proof.
  unfold float_lt. rewrite negb_false_iff. apply Qle_bool_iff.
Qed.

Lemma str_truthy_true s : str_truthy s = true <-> s <> "".
Proof.
  unfold str_truthy. rewrite negb_true_iff. apply String.eqb_neq.
Qed.

(** [int] keeps the whole seconds of a non-negative float ... *)
Lemma int_of_float_nonneg x :
  (0 <= x)%Q ->
  (inject_Z (int_of_float x) <= x)%Q /\ (x < inject_Z (int_of_float x + 1))%Q.
Proof.
  destruct x as [p q]. unfold int_of_float, Qle, Qlt. simpl.
  intros Hp. rewrite Z.mul_1_r in Hp.
  pose proof (Z.quot_rem' p (Z.pos q)) as Hqr.
  pose proof (Z.rem_bound_pos p (Z.pos q) Hp ltac:(lia)) as Hb.
  rewrite !Z.mul_1_r. nia.
Qed.

(** ... and rounds a negative one up. *)
Lemma int_of_float_nonpos x :
  (x <= 0)%Q ->
  (inject_Z (int_of_float x - 1) < x)%Q /\ (x <= inject_Z (int_of_float x))%Q.
Proof.
  destruct x as [p q]. unfold int_of_float, Qle, Qlt. simpl.
  intros Hp. rewrite Z.mul_1_r in Hp.
  pose proof (Z.quot_rem' p (Z.pos q)) as Hqr.
  pose proof (Z.rem_bound_pos_neg p (Z.pos q) ltac:(lia) Hp) as Hb.
  rewrite !Z.mul_1_r. nia.
Qed.

(** Case analysis along the branches of a handler. *)
Ltac handler_cases :=
  repeat match goal with
    | |- context [match status_get ?w ?a with _ => _ end] =>
        let l := fresh "l" in
        let r := fresh "r" in
        let E := fresh "Hget" in
        destruct (status_get w a) as [[l r]|] eqn:E; simpl
    | |- context [match _token_map ?w !! ?t with _ => _ end] =>
        let a := fresh "a" in
        let E := fresh "Hpop" in
        destruct (_token_map w !! t) as [a|] eqn:E; simpl
    | |- context [if confirmed ?r then _ else _] =>
        let E := fresh "Hconf" in destruct (confirmed r) eqn:E; simpl
    | |- context [if sent ?r && ?b then _ else _] =>
        let E := fresh "Hsoon" in destruct (sent r && b) eqn:E; simpl
    | |- context [if negb (str_truthy ?a) then _ else _] =>
        let E := fresh "Htruthy" in destruct (negb (str_truthy a)) eqn:E; simpl
    end.

(** * Status of an address without a record *)

Lemma status_get_None w a :
  dict_get a (_status w) = None -> status_get w a = None.
Proof. unfold status_get. by intros ->. Qed.

Lemma _handle_status_absent w a now :
  dict_get a (_status w) = None -> _handle_status w a now = (w, None).
Proof.
  intros H. unfold _handle_status. by rewrite (status_get_None _ _ H).
Qed.

(** ** Which events can create a record, which can index a token *)

Lemma run_app s evs1 evs2 :
  run s (evs1 ++ evs2)
  = ((run (run s evs1).1 evs2).1, (run s evs1).2 ++ (run (run s evs1).1 evs2).2).
Proof.
  revert s. induction evs1 as [|ev evs1 IH]; intros s; simpl.
  - by destruct (run s evs2).
  - by rewrite IH.
Qed.

Lemma send_end_status smtp now s :
  _status (worker (send_end smtp now s).1) = _status (worker s).
Proof.
  unfold send_end. destruct (sender s); try done.
  by destruct (returned _).
Qed.

Lemma send_end_token_map smtp now s :
  _token_map (worker (send_end smtp now s).1) = _token_map (worker s).
Proof.
  unfold send_end. destruct (sender s); try done.
  by destruct (returned _).
Qed.

Lemma wake_worker s : worker (wake s) = worker s.
Proof.
  unfold wake. destruct (sender s); try done.
  by destruct (select_batch _).
Qed.

(** Only a request for [a] can give [a] a record. *)
Lemma step_keeps_absent s ev a :
  never_requested a [ev] = true ->
  dict_get a (_status (worker s)) = None ->
  dict_get a (_status (worker (step s ev).1)) = None.
Proof.
  intros Hnr Habs. destruct ev as [email now tok|email now|tok| |smtp now]; simpl.
  - simpl in Hnr. rewrite andb_true_r, negb_true_iff in Hnr.
    apply String.eqb_neq in Hnr.
    unfold _handle_request. handler_cases; try done;
      by rewrite dict_get_set_ne.
  - unfold _handle_status. handler_cases; try done.
    destruct (decide (email = a)) as [->|Hne].
    + apply dict_get_pop_eq.
    + by rewrite dict_get_pop_ne.
  - unfold _handle_confirm. by handler_cases.
  - by rewrite wake_worker.
  - by rewrite send_end_status.
Qed.

Lemma run_keeps_absent evs s a :
  never_requested a evs = true ->
  dict_get a (_status (worker s)) = None ->
  dict_get a (_status (worker (run s evs).1)) = None.
Proof.
  revert s. induction evs as [|ev evs IH]; intros s Hnr Habs; simpl; [done|].
  simpl in Hnr. apply andb_true_iff in Hnr as [Hev Hnr].
  apply IH; [done|]. apply step_keeps_absent; [|done].
  simpl. by rewrite Hev.
Qed.

(** Only a request that draws [t] can put [t] in the token index. *)
Lemma step_keeps_unindexed s ev t :
  ~ In t (request_tokens [ev]) ->
  _token_map (worker s) !! t = None ->
  _token_map (worker (step s ev).1) !! t = None.
Proof.
  intros Hnt Habs. destruct ev as [email now tok|email now|tok| |smtp now]; simpl.
  - assert (tok <> t) as Hne by (intros ->; apply Hnt; by left).
    unfold _handle_request. handler_cases; try done;
      rewrite lookup_insert_ne by done; [|done].
    rewrite lookup_delete. by case_decide.
  - unfold _handle_status. handler_cases; try done.
    rewrite lookup_delete. by case_decide.
  - assert (delete tok (_token_map (worker s)) !! t = None) as Hdel.
    { rewrite lookup_delete. by case_decide. }
    unfold _handle_confirm. by handler_cases.
  - by rewrite wake_worker.
  - by rewrite send_end_token_map.
Qed.

Lemma run_keeps_unindexed evs s t :
  ~ In t (request_tokens evs) ->
  _token_map (worker s) !! t = None ->
  _token_map (worker (run s evs).1) !! t = None.
Proof.
  revert s. induction evs as [|ev evs IH]; intros s Hnt Habs; simpl; [done|].
  apply IH.
  - intros Hin. apply Hnt. destruct ev; simpl; auto.
  - apply step_keeps_unindexed; [|done].
    intros Hin. apply Hnt. destruct ev; simpl in *; intuition.
Qed.

(** A token that is not indexed cannot be redeemed, and nothing changes. *)
Lemma _handle_confirm_unindexed w t :
  _token_map w !! t = None -> _handle_confirm w t = (w, false).
Proof.
  intros H. unfold _handle_confirm. rewrite H.
  unfold pop_token. rewrite delete_id by done. by destruct w.
Qed.

(** The token entry is gone after the lookup, whatever the reply. *)
Lemma _handle_confirm_pops w t :
  _token_map (_handle_confirm w t).1 !! t = None.
Proof.
  assert (delete t (_token_map w) !! t = None) as Hdel
    by apply lookup_delete_eq.
  unfold _handle_confirm.
  destruct (_token_map w !! t) as [email|]; simpl; [|done].
  destruct (negb (str_truthy email)); simpl; [done|].
  by destruct (status_get _ email) as [[l r]|].
Qed.

(** * Claims about single handlers *)

(** C7.  An address that no request task ever named has no record: from the
    initial worker, after any events among which no request is for [a], a
    status task for [a] is answered [None] and the worker (both dictionaries
    and the record store) is left as it was. *)
Theorem status_never_requested (evs : list Event) (a : string) (now : Q) :
  never_requested a evs = true ->
  let w := worker (run boot evs).1 in
  _handle_status w a now = (w, None).
Proof.
  intros Hnr w. apply _handle_status_absent.
  by apply run_keeps_absent.
Qed.

Lemma status_never_requested_witness :
  never_requested "a@x.com"
    [EvRequest "b@x.com" 0%Q "t1"; EvWake; EvSendEnd smtp_ok 10%Q;
     EvConfirm "t1"] = true
  /\ let w := worker (run boot
         [EvRequest "b@x.com" 0%Q "t1"; EvWake; EvSendEnd smtp_ok 10%Q;
          EvConfirm "t1"]).1 in
     _handle_status w "a@x.com" 11%Q = (w, None).
Proof.
  split; [reflexivity|].
  apply (status_never_requested
           [EvRequest "b@x.com" 0%Q "t1"; EvWake; EvSendEnd smtp_ok 10%Q;
            EvConfirm "t1"] "a@x.com" 11%Q).
  reflexivity.
Defined.

(** C8.  A request for an address whose record is confirmed is answered
    [True] and changes nothing: the worker after the call is the worker
    before it. *)
Theorem request_confirmed_noop (w : MailWorker) (a : string) (now : Q)
    (tok : string) (l : loc) (r : Rec) :
  status_get w a = Some (l, r) ->
  confirmed r = true ->
  _handle_request w a now tok = (w, true).
Proof.
  intros Hget Hc. unfold _handle_request. by rewrite Hget, Hc.
Qed.

Lemma request_confirmed_noop_witness :
  let w := worker confirmed_once in
  let r := {| sent := true; ts := 10%Q; confirmed := true; token := "t1" |} in
  status_get w "a@x.com" = Some (0%nat, r)
  /\ confirmed r = true
  /\ _handle_request w "a@x.com" 50%Q "t2" = (w, true).
Proof.
  split; [vm_compute; reflexivity|]. split; [reflexivity|].
  apply (request_confirmed_noop (worker confirmed_once) "a@x.com" 50%Q "t2"
           0%nat
           {| sent := true; ts := 10%Q; confirmed := true; token := "t1" |}).
  - vm_compute; reflexivity.
  - reflexivity.
Defined.

(** C1, as stated, fails: a record that no sender cycle has picked up does
    not hold a second request back.  Two requests one second apart are both
    answered [True]. *)
Lemma request_twice_unsent_both_true :
  (run boot [EvRequest "a@x.com" 0%Q "t1"]).2 = [OutBool true]
  /\ status_get (worker pending_unsent) "a@x.com"
     = Some (0%nat, {| sent := false; ts := 0%Q; confirmed := false;
                       token := "t1" |})
  /\ (1 - 0 < inject_Z RESEND_WINDOW)%Q
  /\ (_handle_request (worker pending_unsent) "a@x.com" 1%Q "t2").2 = true.
Proof. repeat split; vm_compute; reflexivity. Qed.

(** A record that no sender cycle has picked up yet does not hold a request
    back, however soon it comes: the token is rotated and the reply is
    [True]. *)
Lemma request_unsent_rotates (w : MailWorker) (a : string) (now : Q)
    (tok : string) (l : loc) (r : Rec) :
  status_get w a = Some (l, r) ->
  confirmed r = false ->
  sent r = false ->
  _handle_request w a now tok = store_new (pop_token w (token r)) a tok.
Proof.
  intros Hget Hc Hs. unfold _handle_request. by rewrite Hget, Hc, Hs.
Qed.

(** C1, amended.  When the record of [a] is not confirmed and has been sent,
    a request arriving less than [RESEND_WINDOW] seconds after the time of
    sending is answered [False] and changes nothing. *)
Theorem request_too_soon (w : MailWorker) (a : string) (now : Q)
    (tok : string) (l : loc) (r : Rec) :
  status_get w a = Some (l, r) ->
  confirmed r = false ->
  sent r = true ->
  (now - ts r < inject_Z RESEND_WINDOW)%Q ->
  _handle_request w a now tok = (w, false).
Proof.
  intros Hget Hc Hs Hlt. unfold _handle_request.
  rewrite Hget, Hc, Hs. simpl.
  by apply float_lt_true in Hlt as ->.
Qed.

Lemma request_too_soon_witness :
  let w := worker pending_sent in
  let r := {| sent := true; ts := 10%Q; confirmed := false; token := "t1" |} in
  status_get w "a@x.com" = Some (0%nat, r)
  /\ (39 - ts r < inject_Z RESEND_WINDOW)%Q
  /\ _handle_request w "a@x.com" 39%Q "t2" = (w, false).
Proof.
  split; [vm_compute; reflexivity|]. split; [reflexivity|].
  apply (request_too_soon (worker pending_sent) "a@x.com" 39%Q "t2" 0%nat
           {| sent := true; ts := 10%Q; confirmed := false; token := "t1" |}).
  - vm_compute; reflexivity.
  - reflexivity.
  - reflexivity.
  - reflexivity.
Defined.

(** C9, as stated, fails when the elapsed time is not a whole number of
    seconds: half a second after sending, the answer carries [timer = 30]
    where the formula gives 29.5. *)
Lemma status_timer_not_spec_remaining :
  let w := worker pending_sent in
  exists l r ans,
    status_get w "a@x.com" = Some (l, r)
    /\ sent r = true
    /\ (_handle_status w "a@x.com" (21 # 2)).2 = Some ans
    /\ ans_timer ans = 30
    /\ ~ (inject_Z (ans_timer ans) == spec_remaining (21 # 2) (ts r))%Q.
Proof.
  exists 0%nat,
    {| sent := true; ts := 10%Q; confirmed := false; token := "t1" |},
    {| ans_sent := 1; ans_timer := 30; ans_confirmed := 0 |}.
  repeat split; try (vm_compute; reflexivity).
  vm_compute. discriminate.
Qed.

(** C9, amended.  The answer carries the record's two flags (as 0 or 1),
    [timer = 0] when the record is not sent, and otherwise
    [timer = max(0, RESEND_WINDOW - n)] where [n] is the elapsed time
    [now - ts] cut to whole seconds toward zero. *)
Theorem status_snapshot (w : MailWorker) (a : string) (now : Q)
    (l : loc) (r : Rec) :
  status_get w a = Some (l, r) ->
  exists ans,
    (_handle_status w a now).2 = Some ans
    /\ ans_sent ans = Z.b2z (sent r)
    /\ ans_confirmed ans = Z.b2z (confirmed r)
    /\ (sent r = false -> ans_timer ans = 0)
    /\ (sent r = true ->
        exists n : Z,
          ans_timer ans = Z.max 0 (RESEND_WINDOW - n)
          /\ ((0 <= now - ts r)%Q ->
              (inject_Z n <= now - ts r)%Q /\ (now - ts r < inject_Z (n + 1))%Q)
          /\ ((now - ts r <= 0)%Q ->
              (inject_Z (n - 1) < now - ts r)%Q /\ (now - ts r <= inject_Z n)%Q)).
Proof.
  intros Hget. unfold _handle_status. rewrite Hget. simpl.
  eexists. split; [reflexivity|]. simpl. unfold remain_of.
  repeat split.
  - by intros ->.
  - intros ->. exists (int_of_float (now - ts r)).
    split; [done|]. split.
    + apply int_of_float_nonneg.
    + apply int_of_float_nonpos.
Qed.

Lemma status_snapshot_witness :
  let w := worker pending_sent in
  let r := {| sent := true; ts := 10%Q; confirmed := false; token := "t1" |} in
  status_get w "a@x.com" = Some (0%nat, r)
  /\ exists ans,
    (_handle_status w "a@x.com" (21 # 2)).2 = Some ans
    /\ ans_sent ans = Z.b2z (sent r)
    /\ ans_confirmed ans = Z.b2z (confirmed r)
    /\ (sent r = false -> ans_timer ans = 0)
    /\ (sent r = true ->
        exists n : Z,
          ans_timer ans = Z.max 0 (RESEND_WINDOW - n)
          /\ ((0 <= (21 # 2) - ts r)%Q ->
              (inject_Z n <= (21 # 2) - ts r)%Q
              /\ ((21 # 2) - ts r < inject_Z (n + 1))%Q)
          /\ (((21 # 2) - ts r <= 0)%Q ->
              (inject_Z (n - 1) < (21 # 2) - ts r)%Q
              /\ ((21 # 2) - ts r <= inject_Z n)%Q)).
Proof.
  split; [vm_compute; reflexivity|].
  apply (status_snapshot (worker pending_sent) "a@x.com" (21 # 2) 0%nat
           {| sent := true; ts := 10%Q; confirmed := false; token := "t1" |}).
  vm_compute; reflexivity.
Defined.

(** C5.  When the record of [a] is sent and not confirmed, a request that
    arrives [RESEND_WINDOW] seconds or more after the time of sending is
    answered [True]; the address gets a new, unsent record with the token
    just drawn, that token is indexed, the old one is not, and a confirm
    task for the old token is answered [False] straight away and after any
    further events (as long as the generator does not draw the old token
    again). *)
Theorem request_after_window (w : MailWorker) (a : string) (now : Q)
    (tok : string) (l : loc) (r : Rec) :
  status_get w a = Some (l, r) ->
  confirmed r = false ->
  sent r = true ->
  (inject_Z RESEND_WINDOW <= now - ts r)%Q ->
  tok <> token r ->
  let w' := (_handle_request w a now tok).1 in
  (_handle_request w a now tok).2 = true
  /\ status_get w' a
     = Some (length (heap w),
             {| sent := false; ts := 0%Q; confirmed := false; token := tok |})
  /\ _token_map w' !! tok = Some a
  /\ _token_map w' !! token r = None
  /\ _handle_confirm w' (token r) = (w', false)
  /\ forall sd evs,
       ~ In (token r) (request_tokens evs) ->
       (_handle_confirm
          (worker (run {| worker := w'; sender := sd |} evs).1) (token r)).2
       = false.
Proof.
  intros Hget Hc Hs Hle Hne w'. subst w'. unfold _handle_request.
  rewrite Hget, Hc, Hs. simpl.
  apply float_lt_false in Hle as ->. simpl.
  assert (<[tok:=a]> (delete (token r) (_token_map w)) !! token r = None)
    as Hold.
  { rewrite lookup_insert_ne by done. apply lookup_delete_eq. }
  repeat split.
  - unfold status_get. simpl. rewrite dict_get_set_eq.
    by rewrite list_lookup_middle.
  - apply lookup_insert_eq.
  - done.
  - by apply _handle_confirm_unindexed.
  - intros sd evs Hnot.
    rewrite _handle_confirm_unindexed; [done|].
    by apply run_keeps_unindexed.
Qed.

Lemma request_after_window_witness :
  let w := worker pending_sent in
  let r := {| sent := true; ts := 10%Q; confirmed := false; token := "t1" |} in
  let w' := (_handle_request w "a@x.com" 40%Q "t2").1 in
  status_get w "a@x.com" = Some (0%nat, r)
  /\ (inject_Z RESEND_WINDOW <= 40 - ts r)%Q
  /\ (_handle_request w "a@x.com" 40%Q "t2").2 = true
  /\ status_get w' "a@x.com"
     = Some (length (heap w),
             {| sent := false; ts := 0%Q; confirmed := false; token := "t2" |})
  /\ _token_map w' !! "t2" = Some "a@x.com"
  /\ _token_map w' !! token r = None
  /\ _handle_confirm w' (token r) = (w', false)
  /\ forall sd evs,
       ~ In (token r) (request_tokens evs) ->
       (_handle_confirm
          (worker (run {| worker := w'; sender := sd |} evs).1) (token r)).2
       = false.
Proof.
  split; [vm_compute; reflexivity|].
  split; [vm_compute; discriminate|].
  apply (request_after_window (worker pending_sent) "a@x.com" 40%Q "t2" 0%nat
           {| sent := true; ts := 10%Q; confirmed := false; token := "t1" |}).
  - vm_compute; reflexivity.
  - reflexivity.
  - reflexivity.
  - vm_compute; discriminate.
  - discriminate.
Defined.

(** C4.  When the record of [a] is confirmed, a status task for [a] is
    answered with [confirmed = 1] and removes the address from [_status] and
    the record's token from [_token_map]; the next status task for [a] is
    answered [None], and so is every later one until a request names [a]
    again. *)
Theorem status_confirmed_once (w : MailWorker) (a : string) (now : Q)
    (l : loc) (r : Rec) :
  status_get w a = Some (l, r) ->
  confirmed r = true ->
  let w' := (_handle_status w a now).1 in
  (exists ans, (_handle_status w a now).2 = Some ans /\ ans_confirmed ans = 1)
  /\ dict_get a (_status w') = None
  /\ _token_map w' !! token r = None
  /\ (forall now', _handle_status w' a now' = (w', None))
  /\ forall sd evs now',
       never_requested a evs = true ->
       (_handle_status
          (worker (run {| worker := w'; sender := sd |} evs).1) a now').2
       = None.
Proof.
  intros Hget Hc w'. subst w'.
  assert (_handle_status w a now
          = (_cleanup w a (token r),
             Some {| ans_sent := Z.b2z (sent r);
                     ans_timer := remain_of r now;
                     ans_confirmed := 1 |})) as ->.
  { unfold _handle_status. by rewrite Hget, Hc. }
  simpl.
  assert (dict_get a (dict_pop a (_status w)) = None) as Hgone
    by apply dict_get_pop_eq.
  repeat split.
  - by eexists.
  - done.
  - apply lookup_delete_eq.
  - intros now'. by apply _handle_status_absent.
  - intros sd evs now' Hnr.
    rewrite _handle_status_absent; [done|].
    by apply run_keeps_absent.
Qed.

Lemma status_confirmed_once_witness :
  let w := worker confirmed_once in
  let r := {| sent := true; ts := 10%Q; confirmed := true; token := "t1" |} in
  let w' := (_handle_status w "a@x.com" 12%Q).1 in
  status_get w "a@x.com" = Some (0%nat, r)
  /\ (exists ans, (_handle_status w "a@x.com" 12%Q).2 = Some ans
                  /\ ans_confirmed ans = 1)
  /\ dict_get "a@x.com" (_status w') = None
  /\ _token_map w' !! token r = None
  /\ (forall now', _handle_status w' "a@x.com" now' = (w', None))
  /\ forall sd evs now',
       never_requested "a@x.com" evs = true ->
       (_handle_status
          (worker (run {| worker := w'; sender := sd |} evs).1)
          "a@x.com" now').2
       = None.
Proof.
  split; [vm_compute; reflexivity|].
  apply (status_confirmed_once (worker confirmed_once) "a@x.com" 12%Q 0%nat
           {| sent := true; ts := 10%Q; confirmed := true; token := "t1" |}).
  - vm_compute; reflexivity.
  - reflexivity.
Defined.

(** * The sender cycle *)

Lemma select_batch_spec w e l :
  In (e, l) (select_batch w)
  <-> In (e, l) (_status w)
      /\ exists r, heap w !! l = Some r /\ sent r = false /\ confirmed r = false.
Proof.
  unfold select_batch. rewrite filter_In. unfold unsent. simpl.
  split; intros [Hin H]; (split; [done|]).
  - destruct (heap w !! l) as [r|]; [|done].
    apply andb_true_iff in H as [Hs Hc].
    apply negb_true_iff in Hs, Hc. by exists r.
  - destruct H as (r & -> & -> & ->). done.
Qed.

Section Marking.
Variable now : Q.

Lemma alter_keeps_marked h l l' :
  marked now h l -> marked now (alter (set_sent now) l' h) l.
Proof.
  intros (r & Hl & Hs & Ht). destruct (decide (l' = l)) as [Heq|Hne].
  - subst l'. exists (set_sent now r). split; [|done].
    rewrite list_lookup_alter_eq. by rewrite Hl.
  - exists r. split; [|done]. by rewrite list_lookup_alter_ne.
Qed.

Lemma alter_marks h l :
  (l < length h)%nat -> marked now (alter (set_sent now) l h) l.
Proof.
  intros Hlt. destruct (lookup_lt_is_Some_2 h l Hlt) as [r Hr].
  exists (set_sent now r). split; [|done].
  rewrite list_lookup_alter_eq. by rewrite Hr.
Qed.

Lemma mark_batch_keeps batch h l :
  marked now h l -> marked now (mark_batch now batch h) l.
Proof.
  revert h. induction batch as [|item batch IH]; intros h Hm; simpl; [done|].
  apply IH. by apply alter_keeps_marked.
Qed.

Lemma mark_batch_length batch h :
  length (mark_batch now batch h) = length h.
Proof.
  revert h. induction batch as [|item batch IH]; intros h; simpl; [done|].
  rewrite IH. apply length_alter.
Qed.

Lemma mark_batch_marks batch h e l :
  In (e, l) batch -> (l < length h)%nat ->
  marked now (mark_batch now batch h) l.
Proof.
  revert h. induction batch as [|item batch IH]; intros h Hin Hlt; [done|].
  simpl. destruct Hin as [->|Hin].
  - apply mark_batch_keeps. by apply alter_marks.
  - apply IH; [done|]. by rewrite length_alter.
Qed.
End Marking.


Lemma task_sender s ev :
  is_task ev = true -> sender (step s ev).1 = sender s.
Proof. intros Ht. by destruct ev. Qed.



Lemma send_end_Sending smtp now s batch :
  sender s = Sending batch ->
  (send_end smtp now s).1
  = if returned (_send_batch smtp (heap (worker s)) batch)
    then {| worker := {| heap := mark_batch now batch (heap (worker s));
                         _status := _status (worker s);
                         _token_map := _token_map (worker s) |};
            sender := Sleeping |}
    else {| worker := worker s; sender := Stopped |}.
Proof.
  intros Hsd. unfold send_end. rewrite Hsd. by destruct (returned _).
Qed.



(** The scenario of the specification: two unsent records, the mail server
    fails on the second item; the first message alone is delivered, the
    failure is logged, and both records end the cycle sent. *)
Example dispatch_second_item_fails :
  let s' := (run two_unsent [EvWake; EvSendEnd smtp_second_fails 10%Q]) in
  s'.2 = [OutNone;
          OutSend {| delivered :=
                       [{| msg_to := "a@x.com";
                           msg_link := "https://example.com/confirm?token=t1" |}];
                     printed := ["b@x.com"];
                     returned := true |}]
  /\ status_get (worker s'.1) "a@x.com"
     = Some (0%nat, {| sent := true; ts := 10%Q; confirmed := false;
                       token := "t1" |})
  /\ status_get (worker s'.1) "b@x.com"
     = Some (1%nat, {| sent := true; ts := 10%Q; confirmed := false;
                       token := "t2" |}).
Proof. repeat split; vm_compute; reflexivity. Qed.

(** When the connection to the mail server fails, the exception leaves
    [_send_batch]: nothing is marked and the sender task is over. *)
Example dispatch_turn_second_item_fails :
  let w' := worker (_batch_sender_turn smtp_second_fails 10%Q two_unsent) in
  _status w' = _status (worker two_unsent)
  /\ _token_map w' = _token_map (worker two_unsent)
  /\ (sent <$> heap w') = [true; true]
  /\ (ts <$> heap w') = [10%Q; 10%Q].
Proof. repeat split; vm_compute; reflexivity. Qed.

Example dispatch_connect_fails :
  let smtp := {| to_header := fun _ => true; connect := false;
                 login := true; send_message := [];
                 quit := true |} in
  let s' := (run two_unsent [EvWake; EvSendEnd smtp 10%Q; EvWake]).1 in
  worker s' = worker two_unsent /\ sender s' = Stopped.
Proof. split; vm_compute; reflexivity. Qed.

(** * The token index and the records *)

(** ** What each operation does to the record of an address *)

Lemma live_Some w a r :
  live w a = Some r
  <-> exists l, dict_get a (_status w) = Some l /\ heap w !! l = Some r.
Proof.
  unfold live, status_get. split.
  - destruct (dict_get a (_status w)) as [l|]; [|done].
    destruct (heap w !! l) as [r'|] eqn:E; [|done].
    intros [= ->]. by exists l.
  - intros (l & -> & ->). done.
Qed.

Lemma live_pop_token w t a : live (pop_token w t) a = live w a.
Proof. done. Qed.

Lemma live_store_new w a tok a' :
  store_ok (heap w) (_status w) ->
  live (store_new w a tok).1 a'
  = if decide (a = a')
    then Some {| sent := false; ts := 0%Q; confirmed := false; token := tok |}
    else live w a'.
Proof.
  intros [Hb _]. unfold live, status_get. simpl. case_decide as Ha.
  - subst a'. rewrite dict_get_set_eq. by rewrite list_lookup_middle.
  - rewrite dict_get_set_ne by done.
    destruct (dict_get a' (_status w)) as [l|] eqn:E; [|done].
    rewrite lookup_app_l; [done|]. by eapply Hb.
Qed.

Lemma live_cleanup w a t a' :
  live (_cleanup w a t) a' = if decide (a = a') then None else live w a'.
Proof.
  unfold live, status_get. simpl. case_decide as Ha.
  - subst a'. by rewrite dict_get_pop_eq.
  - by rewrite dict_get_pop_ne.
Qed.

Lemma live_set_confirmed h d m a l r a' :
  store_ok h d ->
  dict_get a d = Some l ->
  h !! l = Some r ->
  live {| heap := <[l := set_confirmed r]> h; _status := d; _token_map := m |} a'
  = if decide (a = a') then Some (set_confirmed r)
    else live {| heap := h; _status := d; _token_map := m |} a'.
Proof.
  intros [Hb Hal] Hd Hr. unfold live, status_get. simpl. case_decide as Ha.
  - subst a'. rewrite Hd. rewrite list_lookup_insert_eq; [done|].
    by eapply lookup_lt_Some.
  - destruct (dict_get a' d) as [l'|] eqn:E; [|done].
    rewrite list_lookup_insert_ne; [done|].
    intros ->. apply Ha. by eapply Hal.
Qed.

Lemma mark_batch_lookup now batch h l :
  mark_batch now batch h !! l = None /\ h !! l = None
  \/ exists r r', h !! l = Some r /\ mark_batch now batch h !! l = Some r'
                  /\ token r' = token r /\ confirmed r' = confirmed r.
Proof.
  revert h. induction batch as [|item batch IH]; intros h; simpl.
  - destruct (h !! l) as [r|] eqn:E; [right|left; done].
    by exists r, r.
  - destruct (IH (alter (set_sent now) item.2 h))
      as [[Hn1 Hn2]|(r & r' & Hr & Hr' & Ht & Hc)].
    + left. split; [done|]. rewrite list_lookup_alter in Hn2.
      case_decide; [|done]. subst l. by destruct (h !! item.2).
    + right. rewrite list_lookup_alter in Hr. case_decide as Hi.
      * subst l. destruct (h !! item.2) as [r0|]; [|done].
        injection Hr as <-. by exists r0, r'.
      * by exists r, r'.
Qed.

Lemma live_mark_batch now batch h d m a :
  let w := {| heap := h; _status := d; _token_map := m |} in
  let w' := {| heap := mark_batch now batch h; _status := d;
               _token_map := m |} in
  live w' a = None /\ live w a = None
  \/ exists r r', live w a = Some r /\ live w' a = Some r'
                  /\ token r' = token r /\ confirmed r' = confirmed r.
Proof.
  intros w w'. unfold live, status_get. simpl.
  destruct (dict_get a d) as [l|]; [|by left].
  destruct (mark_batch_lookup now batch h l)
    as [[-> ->]|(r & r' & -> & -> & Ht & Hc)]; [by left|right].
  by exists r, r'.
Qed.

(** ** The store stays well formed *)

Lemma store_ok_init : store_ok [] [].
Proof. by split. Qed.

Lemma store_ok_store_new h d a x :
  store_ok h d -> store_ok (h ++ [x]) (dict_set a (length h) d).
Proof.
  intros [Hb Hal]. split.
  - intros a' l. rewrite length_app. simpl.
    destruct (decide (a = a')) as [->|Hne].
    + rewrite dict_get_set_eq. intros [= <-]. lia.
    + rewrite dict_get_set_ne by done. intros H%Hb. lia.
  - intros a1 a2 l.
    destruct (decide (a = a1)) as [E1|H1], (decide (a = a2)) as [E2|H2].
    + congruence.
    + subst a1. rewrite dict_get_set_eq, dict_get_set_ne by done.
      intros [= <-] H%Hb. lia.
    + subst a2. rewrite dict_get_set_eq, dict_get_set_ne by done.
      intros H%Hb [= <-]. lia.
    + rewrite !dict_get_set_ne by done. apply Hal.
Qed.

Lemma store_ok_pop h d a : store_ok h d -> store_ok h (dict_pop a d).
Proof.
  intros [Hb Hal].
  assert (forall a' l, dict_get a' (dict_pop a d) = Some l ->
                       dict_get a' d = Some l) as Hsub.
  { intros a' l. destruct (decide (a = a')) as [->|Hne].
    - by rewrite dict_get_pop_eq.
    - by rewrite dict_get_pop_ne. }
  split.
  - intros a' l H%Hsub. by eapply Hb.
  - intros a1 a2 l H1%Hsub H2%Hsub. by eapply Hal.
Qed.

Lemma store_ok_length h h' d :
  length h' = length h -> store_ok h d -> store_ok h' d.
Proof.
  intros Hlen [Hb Hal]. split; [|done].
  intros a l H%Hb. lia.
Qed.

(** ** Soundness of the token index, for any tokens *)

Lemma Sound_init : Sound init.
Proof.
  split; [apply store_ok_init|]. intros t a. simpl.
  by rewrite lookup_empty.
Qed.

Lemma store_new_sound w a tok :
  store_ok (heap w) (_status w) ->
  (forall t a', t <> tok -> _token_map w !! t = Some a' ->
     a <> a' /\ exists r, live w a' = Some r /\ token r = t
                          /\ confirmed r = false) ->
  Sound (store_new w a tok).1.
Proof.
  intros Hok Hidx. split.
  - simpl. by apply store_ok_store_new.
  - intros t a' Ht. rewrite live_store_new by done.
    simpl in Ht. destruct (decide (tok = t)) as [->|Hne].
    + rewrite lookup_insert_eq in Ht. injection Ht as <-.
      rewrite decide_True by done. by eexists.
    + rewrite lookup_insert_ne in Ht by done.
      destruct (Hidx t a') as [Ha Hr]; [done..|].
      by rewrite decide_False.
Qed.

Lemma _handle_request_sound w a now tok :
  Sound w -> Sound (_handle_request w a now tok).1.
Proof.
  intros [Hok Hidx]. unfold _handle_request.
  destruct (status_get w a) as [[l rec]|] eqn:Hget.
  - destruct (confirmed rec); [done|].
    destruct (sent rec && _); [done|].
    apply store_new_sound; [done|].
    intros t a' _. simpl. rewrite lookup_delete. case_decide as Ht; [done|].
    intros (r & Hr & Htok & Hc)%Hidx. split; [|by exists r].
    intros <-. apply Ht. unfold live in Hr. rewrite Hget in Hr.
    by injection Hr as <-.
  - apply store_new_sound; [done|].
    intros t a' _ (r & Hr & Htok & Hc)%Hidx. split; [|by exists r].
    intros <-. unfold live in Hr. by rewrite Hget in Hr.
Qed.

Lemma _handle_status_sound w a now :
  Sound w -> Sound (_handle_status w a now).1.
Proof.
  intros [Hok Hidx]. unfold _handle_status.
  destruct (status_get w a) as [[l rec]|] eqn:Hget; [|done]. simpl.
  destruct (confirmed rec) eqn:Hconf; [|done]. split.
  - simpl. by apply store_ok_pop.
  - intros t a'. simpl. rewrite lookup_delete. case_decide as Ht; [done|].
    intros (r & Hr & Htok & Hc)%Hidx. rewrite live_cleanup.
    rewrite decide_False; [by exists r|].
    intros <-. unfold live in Hr. rewrite Hget in Hr.
    injection Hr as <-. congruence.
Qed.

Lemma pop_token_sound w t : Sound w -> Sound (pop_token w t).
Proof.
  intros [Hok Hidx]. split; [done|].
  intros t' a. simpl. rewrite lookup_delete. case_decide; [done|].
  apply Hidx.
Qed.

Lemma _handle_confirm_sound w t :
  Sound w -> Sound (_handle_confirm w t).1.
Proof.
  intros Hs. pose proof (pop_token_sound w t Hs) as Hs1.
  destruct Hs as [Hok Hidx]. unfold _handle_confirm.
  destruct (_token_map w !! t) as [a|] eqn:Hpop; [|done].
  destruct (negb (str_truthy a)); [done|].
  destruct (status_get (pop_token w t) a) as [[l rec]|] eqn:Hget; [|done].
  simpl. split.
  - simpl. eapply store_ok_length; [|done]. apply length_insert.
  - intros t' a'. simpl. rewrite lookup_delete. case_decide as Ht; [done|].
    intros Ht'. destruct (Hidx _ _ Ht') as (r & Hr & Htok & Hc).
    unfold status_get in Hget. simpl in Hget.
    destruct (dict_get a (_status w)) as [l0|] eqn:Hd; [|done].
    destruct (heap w !! l0) as [r0|] eqn:Hh; [|done].
    injection Hget as -> ->.
    rewrite (live_set_confirmed _ _ _ a) by done.
    destruct (Hidx _ _ Hpop) as (r1 & Hr1 & Htok1 & _).
    rewrite decide_False; [by exists r; destruct w|].
    intros <-. apply Ht. rewrite Hr in Hr1. injection Hr1 as <-. congruence.
Qed.

Lemma send_end_sound smtp now s :
  Sound (worker s) -> Sound (worker (send_end smtp now s).1).
Proof.
  intros [Hok Hidx]. unfold send_end.
  destruct (sender s) as [|batch|]; [done| |done].
  destruct (returned _); [|done]. simpl. split.
  - simpl. eapply store_ok_length; [|done]. apply mark_batch_length.
  - intros t a Ht. simpl in Ht.
    destruct (Hidx _ _ Ht) as (r & Hr & Htok & Hc).
    destruct (live_mark_batch now batch (heap (worker s))
                (_status (worker s)) (_token_map (worker s)) a)
      as [[_ Hn]|(r0 & r' & Hr0 & Hr' & Htok' & Hc')].
    + destruct (worker s). simpl in *. congruence.
    + exists r'. split; [done|].
      destruct (worker s). simpl in *. rewrite Hr in Hr0.
      injection Hr0 as <-. split; congruence.
Qed.

Lemma step_sound s ev : Sound (worker s) -> Sound (worker (step s ev).1).
Proof.
  intros Hs. destruct ev; simpl.
  - by apply _handle_request_sound.
  - by apply _handle_status_sound.
  - by apply _handle_confirm_sound.
  - by rewrite wake_worker.
  - by apply send_end_sound.
Qed.

Lemma run_sound evs s : Sound (worker s) -> Sound (worker (run s evs).1).
Proof.
  revert s. induction evs as [|ev evs IH]; intros s Hs; simpl; [done|].
  apply IH. by apply step_sound.
Qed.

(** ** Completeness of the token index, for tokens never drawn twice *)

Lemma Complete_init : Complete [] init.
Proof. by split. Qed.

Lemma Complete_mono used used' w :
  (forall t, In t used -> In t used') -> Complete used w -> Complete used' w.
Proof.
  intros Hsub [Hu Hq Hl]. split; [|done..].
  intros a r Hr. eapply Hsub, Hu, Hr.
Qed.

Lemma store_new_complete used w a tok :
  store_ok (heap w) (_status w) ->
  ~ In tok used ->
  (forall a' r, live w a' = Some r -> In (token r) used) ->
  (forall a1 a2 r1 r2, live w a1 = Some r1 -> live w a2 = Some r2 ->
     token r1 = token r2 -> a1 = a2) ->
  (forall a' r, a <> a' -> live w a' = Some r -> confirmed r = false ->
     a' <> "" -> _token_map w !! token r = Some a') ->
  Complete (tok :: used) (store_new w a tok).1.
Proof.
  intros Hok Hfresh Hu Hq Hl.
  assert (forall a' r, live (store_new w a tok).1 a' = Some r ->
            a = a' /\ token r = tok \/ a <> a' /\ live w a' = Some r) as Hcase.
  { intros a' r. rewrite live_store_new by done. case_decide.
    - intros [= <-]. by left.
    - intros H'. by right. }
  split.
  - intros a' r [[_ <-]|[_ Hr]]%Hcase; [by left|]. right. by eapply Hu.
  - intros a1 a2 r1 r2 [[<- Ht1]|[Hn1 Hr1]]%Hcase [[<- Ht2]|[Hn2 Hr2]]%Hcase
      Heq; [done| | |by eapply Hq].
    + exfalso. apply Hfresh. rewrite <- Ht1, Heq. by eapply Hu.
    + exfalso. apply Hfresh. rewrite <- Ht2, <- Heq. by eapply Hu.
  - intros a' r [[<- Ht]|[Hn Hr]]%Hcase Hc Hne; simpl.
    + rewrite Ht. apply lookup_insert_eq.
    + rewrite lookup_insert_ne; [by apply Hl|].
      intros ->. apply Hfresh. by eapply Hu.
Qed.

Lemma _handle_request_complete used w a now tok :
  Sound w -> Complete used w -> ~ In tok used ->
  Complete (tok :: used) (_handle_request w a now tok).1.
Proof.
  intros [Hok Hidx] Hcomp Hfresh.
  assert (Complete (tok :: used) w) as Hweak.
  { eapply Complete_mono; [|done]. intros t Ht. by right. }
  destruct Hcomp as [Hu Hq Hl]. unfold _handle_request.
  destruct (status_get w a) as [[l rec]|] eqn:Hget.
  - destruct (confirmed rec); [done|].
    destruct (sent rec && _); [done|].
    apply store_new_complete; try done.
    intros a' r Hne Hr Hc Hnz. simpl.
    rewrite lookup_delete_ne; [by apply Hl|].
    intros Heq. apply Hne. apply (Hq a a' rec r); [|done..].
    unfold live. by rewrite Hget.
  - apply store_new_complete; try done.
    intros a' r _. apply Hl.
Qed.

Lemma _handle_status_complete used w a now :
  Complete used w -> Complete used (_handle_status w a now).1.
Proof.
  intros [Hu Hq Hl]. unfold _handle_status.
  destruct (status_get w a) as [[l rec]|] eqn:Hget; [|done]. simpl.
  destruct (confirmed rec) eqn:Hconf; [|done].
  assert (forall a' r, live (_cleanup w a (token rec)) a' = Some r ->
            a <> a' /\ live w a' = Some r) as Hcase.
  { intros a' r. rewrite live_cleanup. by case_decide. }
  split.
  - intros a' r [_ Hr]%Hcase. by eapply Hu.
  - intros a1 a2 r1 r2 [_ Hr1]%Hcase [_ Hr2]%Hcase. by eapply Hq.
  - intros a' r [Hne Hr]%Hcase Hc Hnz. simpl.
    rewrite lookup_delete_ne; [by apply Hl|].
    intros Heq. apply Hne. apply (Hq a a' rec r); [|done..].
    unfold live. by rewrite Hget.
Qed.

(** Removing a token entry that does not index record [r] at [a]. *)
Lemma pop_token_complete used w t :
  Complete used w ->
  (forall a r, live w a = Some r -> confirmed r = false -> a <> "" ->
     token r <> t) ->
  Complete used (pop_token w t).
Proof.
  intros [Hu Hq Hl] Hother. split; [done..|].
  intros a r Hr Hc Hnz. simpl.
  rewrite lookup_delete_ne; [by apply Hl|].
  intros Heq. by eapply Hother.
Qed.

Lemma _handle_confirm_complete used w t :
  Sound w -> Complete used w -> Complete used (_handle_confirm w t).1.
Proof.
  intros [Hok Hidx] Hcomp. pose proof Hcomp as [Hu Hq Hl].
  unfold _handle_confirm.
  destruct (_token_map w !! t) as [a|] eqn:Hpop.
  - destruct (Hidx _ _ Hpop) as (r0 & Hr0 & Htok0 & Hc0).
    destruct (negb (str_truthy a)) eqn:Htruthy.
    + simpl. apply pop_token_complete; [done|].
      intros a' r Hr Hc Hnz Heq.
      pose proof (Hl _ _ Hr Hc Hnz) as Hi.
      rewrite Heq, Hpop in Hi. injection Hi as ->.
      apply negb_true_iff, not_true_iff_false in Htruthy.
      by apply Htruthy, str_truthy_true.
    + apply live_Some in Hr0 as (l0 & Hd & Hh).
      unfold status_get. simpl. rewrite Hd, Hh. simpl.
      assert (forall a' r,
                live {| heap := <[l0 := set_confirmed r0]> (heap w);
                        _status := _status w;
                        _token_map := delete t (_token_map w) |} a' = Some r ->
                a = a' /\ token r = token r0 /\ confirmed r = true
                \/ a <> a' /\ live w a' = Some r) as Hcase.
      { intros a' r. rewrite (live_set_confirmed _ _ _ a) by done.
        case_decide.
        - intros [= <-]. by left.
        - intros H'. right. split; [done|]. by destruct w. }
      assert (live w a = Some r0) as Hr0.
      { apply live_Some. by exists l0. }
      split.
      * intros a' r [(_ & -> & _)|[_ Hr]]%Hcase; by eapply Hu.
      * intros a1 a2 r1 r2 [(<- & Ht1 & _)|[Hn1 Hr1]]%Hcase
          [(<- & Ht2 & _)|[Hn2 Hr2]]%Hcase Heq; [done|..].
        -- apply (Hq a a2 r0 r2); [done..|congruence].
        -- apply (Hq a1 a r1 r0); [done..|congruence].
        -- by eapply Hq.
      * intros a' r [(_ & _ & Hct)|[Hne Hr]]%Hcase Hc Hnz; [congruence|].
        simpl. rewrite lookup_delete_ne; [by apply Hl|].
        intros Heq. apply Hne. apply (Hq a a' r0 r); [done..|congruence].
  - simpl. apply pop_token_complete; [done|].
    intros a r Hr Hc Hnz Heq.
    pose proof (Hl _ _ Hr Hc Hnz) as Hi. rewrite Heq in Hi. congruence.
Qed.

Lemma send_end_complete used smtp now s :
  Complete used (worker s) -> Complete used (worker (send_end smtp now s).1).
Proof.
  intros [Hu Hq Hl]. unfold send_end.
  destruct (sender s) as [|batch|]; [done| |done].
  destruct (returned _); [|done]. simpl.
  destruct (worker s) as [h d m]. simpl in *.
  assert (forall a r',
            live {| heap := mark_batch now batch h; _status := d;
                    _token_map := m |} a = Some r' ->
            exists r, live {| heap := h; _status := d; _token_map := m |} a
                      = Some r
                      /\ token r' = token r /\ confirmed r' = confirmed r)
    as Hcase.
  { intros a r' Hr'.
    destruct (live_mark_batch now batch h d m a)
      as [[Hn _]|(r & r1 & Hr & Hr1 & Ht & Hc)]; simpl in *; [congruence|].
    exists r. rewrite Hr' in Hr1. by injection Hr1 as <-. }
  split.
  - intros a r' (r & Hr & -> & _)%Hcase. by eapply Hu.
  - intros a1 a2 r1' r2' (r1 & Hr1 & Ht1 & _)%Hcase (r2 & Hr2 & Ht2 & _)%Hcase
      Heq. apply (Hq a1 a2 r1 r2); [done..|congruence].
  - intros a r' (r & Hr & Ht & Hc)%Hcase Hc' Hnz. simpl.
    rewrite Ht. apply Hl; [done|congruence|done].
Qed.

Lemma step_complete used s ev :
  Sound (worker s) -> Complete used (worker s) ->
  (forall t, In t (request_tokens [ev]) -> ~ In t used) ->
  Complete (request_tokens [ev] ++ used) (worker (step s ev).1).
Proof.
  intros Hs Hc Hfresh. destruct ev; simpl.
  - apply _handle_request_complete; [done..|]. apply Hfresh. by left.
  - by apply _handle_status_complete.
  - by apply _handle_confirm_complete.
  - by rewrite wake_worker.
  - by apply send_end_complete.
Qed.

Lemma request_tokens_cons ev evs :
  request_tokens (ev :: evs) = request_tokens [ev] ++ request_tokens evs.
Proof. by destruct ev. Qed.

Lemma run_complete evs s used :
  Sound (worker s) -> Complete used (worker s) ->
  NoDup (request_tokens evs) ->
  (forall t, In t (request_tokens evs) -> ~ In t used) ->
  Complete (request_tokens evs ++ used) (worker (run s evs).1).
Proof.
  revert s used. induction evs as [|ev evs IH];
    intros s used Hs Hc Hnd Hfresh; simpl run; [done|].
  rewrite request_tokens_cons in Hnd, Hfresh |- *.
  apply NoDup_app in Hnd as (Hnd1 & Hdisj & Hnd2).
  eapply Complete_mono;
    [|apply (IH (step s ev).1 (request_tokens [ev] ++ used))].
  - intros t. rewrite !in_app_iff. tauto.
  - by apply step_sound.
  - apply step_complete; [done..|].
    intros t Ht. apply Hfresh, in_app_iff. by left.
  - done.
  - intros t Ht [Hin|Hin]%in_app_iff.
    + apply (Hdisj t); by apply list_elem_of_In.
    + apply (Hfresh t); [|done]. apply in_app_iff. by right.
Qed.

(** C2, as stated, fails: a confirmed record stays in [_status] until the
    next status task, while its token left the index when it was redeemed. *)
Lemma confirmed_record_not_indexed :
  let w := worker (run boot [EvRequest "a@x.com" 0%Q "t1"; EvConfirm "t1"]).1 in
  exists r, live w "a@x.com" = Some r
            /\ _token_map w !! token r <> Some "a@x.com".
Proof.
  exists {| sent := false; ts := 0%Q; confirmed := true; token := "t1" |}.
  split; [vm_compute; reflexivity|]. vm_compute. discriminate.
Qed.

(** C2, amended.  In every state reached from the initial worker by request,
    status and confirm tasks and sender cycles, as long as the generator
    never returns the same token twice: every key [t] of the token index is
    the token of exactly one live record, that record is the one at
    [_token_map[t]] and it is not confirmed; and the token of every live
    record that is not confirmed, at a non-empty address [a], is a key of
    the index with value [a]. *)
Theorem token_index_inverse (evs : list Event) :
  fresh_tokens evs = true ->
  let w := worker (run boot evs).1 in
  (forall a r,
      live w a = Some r -> confirmed r = false -> a <> "" ->
      _token_map w !! token r = Some a)
  /\ (forall t a,
        _token_map w !! t = Some a ->
        (exists r, live w a = Some r /\ token r = t /\ confirmed r = false)
        /\ forall a' r', live w a' = Some r' -> token r' = t -> a' = a).
Proof.
  intros Hfresh w. apply bool_decide_eq_true in Hfresh.
  assert (Sound w) as Hs by apply run_sound, Sound_init.
  assert (Complete (request_tokens evs ++ []) w) as [Hu Hq Hl].
  { apply run_complete; [apply Sound_init|apply Complete_init|done|].
    by intros t _ []. }
  split; [done|]. intros t a Ht.
  destruct (sound_index w Hs t a Ht) as (r & Hr & Htok & Hc).
  split; [by exists r|].
  intros a' r' Hr' Htok'. apply (Hq a' a r' r); [done..|congruence].
Qed.

Lemma token_index_inverse_witness :
  let evs := [EvRequest "a@x.com" 0%Q "t1"; EvRequest "b@x.com" 1%Q "t2";
              EvWake; EvSendEnd smtp_second_fails 10%Q;
              EvRequest "a@x.com" 45%Q "t3"; EvConfirm "t2";
              EvStatus "b@x.com" 46%Q] in
  let w := worker (run boot evs).1 in
  fresh_tokens evs = true
  /\ _token_map w !! "t3" = Some "a@x.com"
  /\ (forall a r,
        live w a = Some r -> confirmed r = false -> a <> "" ->
        _token_map w !! token r = Some a)
  /\ (forall t a,
        _token_map w !! t = Some a ->
        (exists r, live w a = Some r /\ token r = t /\ confirmed r = false)
        /\ forall a' r', live w a' = Some r' -> token r' = t -> a' = a).
Proof.
  split; [vm_compute; reflexivity|]. split; [vm_compute; reflexivity|].
  apply (token_index_inverse
           [EvRequest "a@x.com" 0%Q "t1"; EvRequest "b@x.com" 1%Q "t2";
            EvWake; EvSendEnd smtp_second_fails 10%Q;
            EvRequest "a@x.com" 45%Q "t3"; EvConfirm "t2";
            EvStatus "b@x.com" 46%Q]).
  vm_compute; reflexivity.
Defined.

(** * Redeeming a token *)

(** In a state reached from the initial worker, the record of an indexed
    token is always found: the last branch of [_handle_confirm] is never
    taken, and the reply is [True] exactly when the token is indexed under
    an address that is not the empty string. *)
Lemma confirm_true_iff_indexed_nonempty (evs : list Event) (t : string) :
  let w := worker (run boot evs).1 in
  (forall a, _token_map w !! t = Some a ->
             exists l r, status_get (pop_token w t) a = Some (l, r))
  /\ ((_handle_confirm w t).2 = true
      <-> exists a, _token_map w !! t = Some a /\ a <> "").
Proof.
  intros w.
  assert (Sound w) as [_ Hidx] by apply run_sound, Sound_init.
  assert (forall a, _token_map w !! t = Some a ->
                    exists l r, status_get (pop_token w t) a = Some (l, r))
    as Hfound.
  { intros a (r & Hr & _)%Hidx. apply live_Some in Hr as (l & Hd & Hh).
    exists l, r. unfold status_get. simpl. by rewrite Hd, Hh. }
  split; [done|]. unfold _handle_confirm.
  destruct (_token_map w !! t) as [a|] eqn:Hpop.
  - destruct (Hfound a eq_refl) as (l & r & ->).
    destruct (str_truthy a) eqn:Ha; simpl.
    + apply str_truthy_true in Ha. split; [|done]. intros _. by exists a.
    + split; [done|]. intros (a' & [= <-] & Hne).
      apply str_truthy_true in Hne. congruence.
  - simpl. split; [done|]. by intros (a & ? & _).
Qed.

(** For an address that is not the empty string, a token indexed for it is
    redeemed exactly once: the first confirm task is answered [True] and
    marks the record, and every later one is answered [False] (as long as
    the generator does not draw the token again). *)
Lemma confirm_nonempty_exactly_once (evs : list Event) (t a : string) :
  let w := worker (run boot evs).1 in
  _token_map w !! t = Some a ->
  a <> "" ->
  let w' := (_handle_confirm w t).1 in
  (_handle_confirm w t).2 = true
  /\ (exists r, live w' a = Some r /\ confirmed r = true /\ token r = t)
  /\ _handle_confirm w' t = (w', false)
  /\ forall sd evs',
       ~ In t (request_tokens evs') ->
       (_handle_confirm
          (worker (run {| worker := w'; sender := sd |} evs').1) t).2 = false.
Proof.
  intros w Hidx Hne w'.
  assert (Sound w) as [Hok Hsound] by apply run_sound, Sound_init.
  pose proof (_handle_confirm_pops w t) as Hgone. fold w' in Hgone.
  split; [|split; [|split]].
  - apply confirm_true_iff_indexed_nonempty. by exists a.
  - destruct (Hsound _ _ Hidx) as (r & Hr & Htok & _).
    apply live_Some in Hr as (l & Hd & Hh).
    subst w'. unfold _handle_confirm. rewrite Hidx.
    apply str_truthy_true in Hne as ->. simpl.
    unfold status_get. simpl. rewrite Hd, Hh. simpl.
    exists (set_confirmed r). split; [|done].
    rewrite (live_set_confirmed _ _ _ a) by done. by rewrite decide_True.
  - by apply _handle_confirm_unindexed.
  - intros sd evs' Hnot. rewrite _handle_confirm_unindexed; [done|].
    by apply run_keeps_unindexed.
Qed.

(** C3 at the empty address.  The token issued for [""] is indexed and the
    record is live, yet the first confirm task for it is answered [False]:
    [if not email] takes the empty address for a missing entry.  The token
    is consumed and the record is left unconfirmed. *)
Theorem confirm_fresh_token_empty_address :
  let r := run boot [EvRequest "" 0%Q "t1"; EvConfirm "t1"; EvConfirm "t1"] in
  r.2 = [OutBool true; OutBool false; OutBool false]
  /\ live (worker r.1) ""
     = Some {| sent := false; ts := 0%Q; confirmed := false; token := "t1" |}
  /\ _token_map (worker r.1) !! "t1" = None.
Proof. repeat split; vm_compute; reflexivity. Qed.

(** C10 at the empty address.  ["t1"] is a key of the token index and leads
    to a live record that carries it, and the confirm handler still answers
    [False]. *)
Theorem confirm_indexed_token_false :
  let w := worker (run boot [EvRequest "" 0%Q "t1"]).1 in
  _token_map w !! "t1" = Some ""
  /\ live w ""
     = Some {| sent := false; ts := 0%Q; confirmed := false; token := "t1" |}
  /\ (_handle_confirm w "t1").2 = false.
Proof. repeat split; vm_compute; reflexivity. Qed.

(** * The dictionaries keep one binding per key *)

Lemma dict_set_keys {V} k (v : V) d x :
  x ∈ (dict_set k v d).*1 -> x = k \/ x ∈ d.*1.
Proof.
  induction d as [|[k' v'] d IH]; simpl.
  - intros ->%list_elem_of_singleton. by left.
  - destruct (String.eqb k' k) eqn:E; simpl.
    + apply String.eqb_eq in E as ->. rewrite !elem_of_cons. tauto.
    + rewrite !elem_of_cons. intros [->|H%IH]; tauto.
Qed.

Lemma dict_pop_keys {V} k (d : list (string * V)) x :
  x ∈ (dict_pop k d).*1 -> x ∈ d.*1.
Proof.
  induction d as [|[k' v'] d IH]; simpl; [done|].
  destruct (String.eqb k' k); simpl; rewrite !elem_of_cons; tauto.
Qed.

Lemma dict_set_NoDup {V} k (v : V) d :
  NoDup d.*1 -> NoDup (dict_set k v d).*1.
Proof.
  induction d as [|[k' v'] d IH]; simpl.
  - intros _. apply NoDup_singleton.
  - rewrite NoDup_cons. intros [Hk Hd].
    destruct (String.eqb k' k) eqn:E; simpl.
    + apply String.eqb_eq in E as ->. by apply NoDup_cons.
    + apply NoDup_cons. split; [|by apply IH].
      intros [->|H]%dict_set_keys; [|done].
      by rewrite String.eqb_refl in E.
Qed.

Lemma dict_pop_NoDup {V} k (d : list (string * V)) :
  NoDup d.*1 -> NoDup (dict_pop k d).*1.
Proof.
  induction d as [|[k' v'] d IH]; simpl; [done|].
  rewrite NoDup_cons. intros [Hk Hd].
  destruct (String.eqb k' k); simpl; [by apply IH|].
  apply NoDup_cons. split; [|by apply IH].
  by intros H%dict_pop_keys.
Qed.

Lemma step_keys_unique s ev :
  NoDup (_status (worker s)).*1 -> NoDup (_status (worker (step s ev).1)).*1.
Proof.
  intros Hnd. destruct ev as [email now tok|email now|tok| |smtp now]; simpl.
  - unfold _handle_request. handler_cases; try done;
      by apply dict_set_NoDup.
  - unfold _handle_status. handler_cases; try done.
    by apply dict_pop_NoDup.
  - unfold _handle_confirm. by handler_cases.
  - by rewrite wake_worker.
  - by rewrite send_end_status.
Qed.

(** In every state reached from the initial worker, [_status] binds each
    address once, so [dict_pop] removes at most one binding, as
    [dict.pop] does. *)
Lemma run_keys_unique evs s :
  NoDup (_status (worker s)).*1 -> NoDup (_status (worker (run s evs).1)).*1.
Proof.
  revert s. induction evs as [|ev evs IH]; intros s Hnd; simpl; [done|].
  apply IH. by apply step_keys_unique.
Qed.

(** * The scenario of the specification, as the worker runs it

    Request; a second request at once (answered [True]: nothing was sent
    yet, the token is rotated); a sender cycle; a request inside the window
    ([False]); a request once the window is over ([True], token rotated
    again); the old token is refused, the current one accepted once; the
    first status after that shows [confirmed = 1], the second [None]. *)
Example scenario :
  (run boot
     [EvRequest "a@x.com" 0%Q "t1";
      EvRequest "a@x.com" 1%Q "t2";
      EvWake; EvSendEnd smtp_ok 10%Q;
      EvRequest "a@x.com" 39%Q "t3";
      EvRequest "a@x.com" 40%Q "t4";
      EvStatus "a@x.com" 41%Q;
      EvConfirm "t2";
      EvConfirm "t4";
      EvConfirm "t4";
      EvStatus "a@x.com" 42%Q;
      EvStatus "a@x.com" 43%Q]).2
  = [OutBool true;
     OutBool true;
     OutNone;
     OutSend {| delivered :=
                  [{| msg_to := "a@x.com";
                      msg_link := "https://example.com/confirm?token=t2" |}];
                printed := []; returned := true |};
     OutBool false;
     OutBool true;
     OutStatus (Some {| ans_sent := 0; ans_timer := 0; ans_confirmed := 0 |});
     OutBool false;
     OutBool true;
     OutBool false;
     OutStatus (Some {| ans_sent := 0; ans_timer := 0; ans_confirmed := 1 |});
     OutStatus None].
Proof. vm_compute; reflexivity. Qed.

(** * Request, sender cycle, request

    Over whole runs: for an address without a record, a request is answered
    [True]; once the sender has taken the record in a cycle that returned at
    [t1] (the sender is asleep again), a request less than [RESEND_WINDOW]
    seconds after [t1] is answered [False]. *)
Lemma request_cycle_request (evs : list Event) (a : string) (t0 t1 t2 : Q)
    (tok tok' : string) (smtp : SMTP) :
  let s := (run boot evs).1 in
  let s1 := step s (EvRequest a t0 tok) in
  let s3 := (run s1.1 [EvWake; EvSendEnd smtp t1]).1 in
  sender s = Sleeping ->
  live (worker s) a = None ->
  sender s3 = Sleeping ->
  (t2 - t1 < inject_Z RESEND_WINDOW)%Q ->
  s1.2 = OutBool true
  /\ (step s3 (EvRequest a t2 tok')).2 = OutBool false.
Proof.
  intros s s1 s3 Hsl Hnone Halive Hlt.
  assert (_handle_request (worker s) a t0 tok = store_new (worker s) a tok)
    as Hreq.
  { unfold _handle_request. unfold live in Hnone.
    by destruct (status_get (worker s) a) as [[l r]|]. }
  assert (s1 = ({| worker := (store_new (worker s) a tok).1;
                   sender := Sleeping |}, OutBool true)) as Hs1.
  { subst s1. simpl. unfold lift. by rewrite Hreq, Hsl. }
  split; [by rewrite Hs1|].
  set (w1 := (store_new (worker s) a tok).1) in *.
  set (n := length (heap (worker s))).
  set (new := {| sent := false; ts := 0%Q; confirmed := false; token := tok |}).
  assert (dict_get a (_status w1) = Some n) as Hd by apply dict_get_set_eq.
  assert (heap w1 !! n = Some new) as Hh by by apply list_lookup_middle.
  assert (In (a, n) (select_batch w1)) as Hsel.
  { apply select_batch_spec. split; [by apply dict_get_In|]. by exists new. }
  assert (exists batch,
            select_batch w1 = batch
            /\ s3 = (send_end smtp t1
                       {| worker := w1; sender := Sending batch |}).1)
    as (batch & Hb & Hs3).
  { exists (select_batch w1). split; [done|]. subst s3. rewrite Hs1.
    cbn [run step fst snd]. unfold wake. cbn [sender worker].
    by destruct (select_batch w1). }
  rewrite Hb in Hsel. clearbody w1 n s3.
  rewrite (send_end_Sending smtp t1
             {| worker := w1; sender := Sending batch |} batch eq_refl) in Hs3.
  cbn [worker heap] in Hs3.
  destruct (returned (_send_batch smtp (heap w1) batch));
    [|by rewrite Hs3 in Halive].
  destruct (mark_batch_marks t1 batch (heap w1) a n Hsel)
    as (r' & Hr' & Hsent & Hts); [by eapply lookup_lt_Some|].
  destruct (mark_batch_lookup t1 batch (heap w1) n)
    as [[Hn _]|(r0 & r1 & Hr0 & Hr1 & _ & Hconf)]; [congruence|].
  rewrite Hh in Hr0. injection Hr0 as <-.
  rewrite Hr' in Hr1. injection Hr1 as <-.
  rewrite Hs3. cbn [step fst snd worker]. unfold lift, _handle_request.
  cbn [snd]. unfold status_get. cbn [heap _status].
  rewrite Hd, Hr', Hconf, Hsent. simpl. rewrite Hts.
  by apply float_lt_true in Hlt as ->.
Qed.

(** * The timer over whole seconds

    When the time since sending is a whole number of seconds, the timer of
    the answer is the value of [spec_remaining]. *)
Lemma int_of_float_whole x n : (x == inject_Z n)%Q -> int_of_float x = n.
Proof.
  destruct x as [p q]. unfold int_of_float, Qeq. simpl.
  rewrite Z.mul_1_r. intros ->. apply Z.quot_mul. lia.
Qed.

Lemma inject_Z_max n : (inject_Z (Z.max 0 n) == Qmax 0 (inject_Z n))%Q.
Proof.
  destruct (Z.max_spec 0 n) as [[Hlt ->]|[Hle ->]].
  - symmetry. apply Q.max_r. unfold Qle. simpl. lia.
  - symmetry. apply Q.max_l. unfold Qle. simpl. lia.
Qed.

Lemma remain_of_whole_seconds (r : Rec) (now : Q) (n : Z) :
  sent r = true ->
  (now - ts r == inject_Z n)%Q ->
  (inject_Z (remain_of r now) == spec_remaining now (ts r))%Q.
Proof.
  intros Hs Hn. unfold remain_of, spec_remaining. rewrite Hs.
  rewrite (int_of_float_whole _ _ Hn), inject_Z_max.
  apply Q.max_compat; [reflexivity|].
  rewrite Hn. unfold Z.sub, Qminus.
  rewrite inject_Z_plus, inject_Z_opp. reflexivity.
Qed.

(** * Further properties of the handlers *)

(** X1.  A token that the generator never returned is never accepted: in
    any state reached from the initial worker, a confirm task for it is
    answered [False] and leaves the worker as it was. *)
Theorem confirm_never_issued (evs : list Event) (t : string) :
  ~ In t (request_tokens evs) ->
  let w := worker (run boot evs).1 in
  _handle_confirm w t = (w, false).
Proof.
  intros Hnot w. apply _handle_confirm_unindexed.
  by apply run_keeps_unindexed.
Qed.

Lemma confirm_never_issued_witness :
  let evs := [EvRequest "a@x.com" 0%Q "t1"; EvWake; EvSendEnd smtp_ok 10%Q;
              EvRequest "b@x.com" 11%Q "t2"; EvConfirm "t1"] in
  let w := worker (run boot evs).1 in
  ~ In "forged" (request_tokens evs)
  /\ _handle_confirm w "forged" = (w, false).
Proof.
  assert (~ In "forged"
            (request_tokens
               [EvRequest "a@x.com" 0%Q "t1"; EvWake; EvSendEnd smtp_ok 10%Q;
                EvRequest "b@x.com" 11%Q "t2"; EvConfirm "t1"])) as Hnot.
  { simpl. intros [H|[H|[]]]; discriminate. }
  split; [exact Hnot|].
  exact (confirm_never_issued
           [EvRequest "a@x.com" 0%Q "t1"; EvWake; EvSendEnd smtp_ok 10%Q;
            EvRequest "b@x.com" 11%Q "t2"; EvConfirm "t1"] "forged" Hnot).
Defined.

(** What a handler leaves alone in the record dictionaries that exist:
    their place in the store, the token, the sending mark and its time.
    Only [confirmed] can change, and only from [False] to [True]. *)
Lemma task_keeps_records s ev l r :
  is_task ev = true ->
  heap (worker s) !! l = Some r ->
  exists r', heap (worker (step s ev).1) !! l = Some r'
             /\ token r' = token r /\ sent r' = sent r /\ ts r' = ts r
             /\ (confirmed r = true -> confirmed r' = true).
Proof.
  intros Ht Hr.
  assert (exists r', heap (worker s) !! l = Some r'
                     /\ token r' = token r /\ sent r' = sent r
                     /\ ts r' = ts r
                     /\ (confirmed r = true -> confirmed r' = true)) as Hsame
    by by exists r.
  assert (forall x, exists r', (heap (worker s) ++ [x]) !! l = Some r'
                     /\ token r' = token r /\ sent r' = sent r
                     /\ ts r' = ts r
                     /\ (confirmed r = true -> confirmed r' = true)) as Happ.
  { intros x. exists r. split; [|done]. by apply lookup_app_l_Some. }
  destruct ev as [email now tok|email now|tok| |smtp now]; try done; simpl.
  - unfold _handle_request. handler_cases; done.
  - unfold _handle_status. handler_cases; done.
  - unfold _handle_confirm. handler_cases; try done.
    unfold status_get in Hget. simpl in Hget.
    destruct (dict_get a (_status (worker s))) as [l1|]; [|done].
    destruct (heap (worker s) !! l1) as [r1|] eqn:Hr1; [|done].
    injection Hget as -> ->.
    destruct (decide (l0 = l)) as [->|Hne].
    + rewrite Hr in Hr1. injection Hr1 as <-.
      exists (set_confirmed r). split; [|done].
      apply list_lookup_insert_eq. by eapply lookup_lt_Some.
    + exists r. split; [|done]. by rewrite list_lookup_insert_ne.
Qed.

(** The sender leaves alone which address has which record dictionary, the
    tokens and the confirmations. *)
Lemma send_end_keeps_records smtp now s l r :
  heap (worker s) !! l = Some r ->
  exists r', heap (worker (send_end smtp now s).1) !! l = Some r'
             /\ token r' = token r /\ confirmed r' = confirmed r.
Proof.
  intros Hr. unfold send_end.
  destruct (sender s) as [|batch|]; [by exists r| |by exists r].
  destruct (returned _); [|by exists r]. simpl.
  destruct (mark_batch_lookup now batch (heap (worker s)) l)
    as [[_ Hn]|(r0 & r' & Hr0 & Hr' & Ht & Hc)]; [congruence|].
  rewrite Hr in Hr0. injection Hr0 as <-. by exists r'.
Qed.

Lemma step_keeps_binding s ev a l :
  no_status a [ev] = true ->
  dict_get a (_status (worker s)) = Some l ->
  (exists r, heap (worker s) !! l = Some r /\ confirmed r = true) ->
  dict_get a (_status (worker (step s ev).1)) = Some l.
Proof.
  intros Hns Hd (r & Hr & Hc).
  assert (status_get (worker s) a = Some (l, r)) as Hget0.
  { unfold status_get. by rewrite Hd, Hr. }
  destruct ev as [email now tok|email now|tok| |smtp now]; simpl.
  - unfold _handle_request.
    destruct (decide (email = a)) as [->|Hne].
    + by rewrite Hget0, Hc.
    + handler_cases; try done; by rewrite dict_get_set_ne.
  - simpl in Hns. rewrite andb_true_r, negb_true_iff in Hns.
    apply String.eqb_neq in Hns.
    unfold _handle_status. handler_cases; try done.
    by rewrite dict_get_pop_ne.
  - unfold _handle_confirm. by handler_cases.
  - by rewrite wake_worker.
  - by rewrite send_end_status.
Qed.

(** X2.  A confirmed record stays, and stays confirmed, until a status task
    for its address is handled: neither requests (for this or any other
    address), nor confirm tasks, nor the sender remove it, replace it or
    reset the confirmation; the token is the same too. *)
Theorem confirmed_until_status (s : System) (evs : list Event) (a : string)
    (l : loc) (r : Rec) :
  status_get (worker s) a = Some (l, r) ->
  confirmed r = true ->
  no_status a evs = true ->
  exists r', status_get (worker (run s evs).1) a = Some (l, r')
             /\ confirmed r' = true /\ token r' = token r.
Proof.
  revert s r. induction evs as [|ev evs IH]; intros s r Hget Hc Hns; simpl.
  - by exists r.
  - simpl in Hns. apply andb_true_iff in Hns as [Hev Hns].
    unfold status_get in Hget.
    destruct (dict_get a (_status (worker s))) as [l0|] eqn:Hd; [|done].
    destruct (heap (worker s) !! l0) as [r0|] eqn:Hr; [|done].
    injection Hget as -> ->.
    assert (dict_get a (_status (worker (step s ev).1)) = Some l) as Hd'.
    { apply step_keeps_binding; [by simpl; rewrite Hev|done|by exists r]. }
    assert (exists r1, heap (worker (step s ev).1) !! l = Some r1
                       /\ token r1 = token r /\ confirmed r1 = true)
      as (r1 & Hr1 & Ht1 & Hc1).
    { destruct (is_task ev) eqn:Htask.
      - destruct (task_keeps_records s ev l r Htask Hr)
          as (r1 & ? & ? & _ & _ & Hconf). exists r1. auto.
      - destruct ev; try done; simpl.
        + rewrite wake_worker. by exists r.
        + destruct (send_end_keeps_records smtp now s l r Hr)
            as (r1 & ? & ? & Hconf). exists r1. split; [done|].
          split; congruence. }
    destruct (IH (step s ev).1 r1) as (r' & Hget' & Hc' & Ht'); [|done..|].
    + unfold status_get. by rewrite Hd', Hr1.
    + exists r'. split; [done|]. split; congruence.
Qed.

Lemma confirmed_until_status_witness :
  let r := {| sent := true; ts := 10%Q; confirmed := true; token := "t1" |} in
  let evs := [EvRequest "a@x.com" 50%Q "t2"; EvRequest "b@x.com" 51%Q "t3";
              EvWake; EvSendEnd smtp_ok 60%Q; EvConfirm "t3";
              EvStatus "b@x.com" 61%Q] in
  status_get (worker confirmed_once) "a@x.com" = Some (0%nat, r)
  /\ no_status "a@x.com" evs = true
  /\ exists r', status_get (worker (run confirmed_once evs).1) "a@x.com"
                = Some (0%nat, r')
                /\ confirmed r' = true /\ token r' = token r.
Proof.
  split; [vm_compute; reflexivity|]. split; [reflexivity|].
  apply (confirmed_until_status confirmed_once
           [EvRequest "a@x.com" 50%Q "t2"; EvRequest "b@x.com" 51%Q "t3";
            EvWake; EvSendEnd smtp_ok 60%Q; EvConfirm "t3";
            EvStatus "b@x.com" 61%Q]
           "a@x.com" 0%nat
           {| sent := true; ts := 10%Q; confirmed := true; token := "t1" |}).
  - vm_compute; reflexivity.
  - reflexivity.
  - reflexivity.
Defined.

(** X3.  Polling does no harm: status tasks for an address whose record is
    not confirmed, however many and at whatever times, leave the whole
    system as it was; each is answered with [confirmed = 0] and the
    record's sending mark. *)
Theorem polling_changes_nothing (s : System) (a : string) (nows : list Q)
    (l : loc) (r : Rec) :
  status_get (worker s) a = Some (l, r) ->
  confirmed r = false ->
  (run s (polls a nows)).1 = s
  /\ length (run s (polls a nows)).2 = length nows
  /\ Forall (fun o => exists ans, o = OutStatus (Some ans)
                                  /\ ans_confirmed ans = 0
                                  /\ ans_sent ans = Z.b2z (sent r))
            (run s (polls a nows)).2.
Proof.
  intros Hget Hc.
  assert (forall now, step s (EvStatus a now)
                      = (s, OutStatus (Some {| ans_sent := Z.b2z (sent r);
                                               ans_timer := remain_of r now;
                                               ans_confirmed := 0 |})))
    as Hstep.
  { intros now. simpl. unfold lift, _handle_status. rewrite Hget, Hc.
    simpl. by destruct s. }
  unfold polls. induction nows as [|now nows (IH1 & IH2 & IH3)]; [done|].
  cbn [map run]. rewrite Hstep. cbn [fst snd length].
  split; [done|]. split; [by rewrite IH2|].
  constructor; [|done]. by eexists.
Qed.

Lemma polling_changes_nothing_witness :
  let r := {| sent := true; ts := 10%Q; confirmed := false; token := "t1" |} in
  let nows := [11%Q; 16%Q; 21%Q; 26%Q; 31%Q; 36%Q; 41%Q] in
  status_get (worker pending_sent) "a@x.com" = Some (0%nat, r)
  /\ (run pending_sent (polls "a@x.com" nows)).1 = pending_sent
  /\ length (run pending_sent (polls "a@x.com" nows)).2 = length nows
  /\ Forall (fun o => exists ans, o = OutStatus (Some ans)
                                  /\ ans_confirmed ans = 0
                                  /\ ans_sent ans = Z.b2z (sent r))
            (run pending_sent (polls "a@x.com" nows)).2.
Proof.
  split; [vm_compute; reflexivity|].
  apply (polling_changes_nothing pending_sent "a@x.com"
           [11%Q; 16%Q; 21%Q; 26%Q; 31%Q; 36%Q; 41%Q] 0%nat
           {| sent := true; ts := 10%Q; confirmed := false; token := "t1" |}).
  - vm_compute; reflexivity.
  - reflexivity.
Defined.

(** Whole seconds against the window: [int] reaches a positive bound exactly
    when the float does. *)
Lemma int_of_float_ge x k :
  0 < k -> (k <= int_of_float x <-> (inject_Z k <= x)%Q).
Proof.
  intros Hk. destruct x as [p q]. unfold int_of_float, Qle. simpl.
  rewrite Z.mul_1_r.
  pose proof (Z.quot_rem' p (Z.pos q)) as Hqr.
  destruct (Z.le_gt_cases 0 p) as [Hp|Hp].
  - pose proof (Z.rem_bound_pos p (Z.pos q) Hp ltac:(lia)). nia.
  - pose proof (Z.rem_bound_pos_neg p (Z.pos q) ltac:(lia) ltac:(lia)). nia.
Qed.

(** X4.  The timer and the resend guard agree: for a record that is not
    confirmed, a status task reports [timer = 0] exactly when a request
    handled at the same clock reading would be accepted. *)
Theorem timer_zero_iff_request_accepted (w : MailWorker) (a : string)
    (now : Q) (tok : string) (l : loc) (r : Rec) :
  status_get w a = Some (l, r) ->
  confirmed r = false ->
  (exists ans, (_handle_status w a now).2 = Some ans /\ ans_timer ans = 0)
  <-> (_handle_request w a now tok).2 = true.
Proof.
  intros Hget Hc. unfold _handle_status, _handle_request.
  rewrite Hget, Hc. simpl. unfold remain_of.
  destruct (sent r); simpl.
  - pose proof (int_of_float_ge (now - ts r) RESEND_WINDOW ltac:(done)) as Hge.
    destruct (float_lt (now - ts r) (inject_Z RESEND_WINDOW)) eqn:Hlt; simpl.
    + apply float_lt_true in Hlt. split; [|done].
      intros (ans & [= <-] & H0). simpl in H0. exfalso.
      apply (Qlt_not_le _ _ Hlt), Hge. lia.
    + apply float_lt_false, Hge in Hlt. split; [done|]. intros _.
      eexists. split; [done|]. simpl. lia.
  - split; [done|]. intros _. by eexists.
Qed.

Lemma timer_zero_iff_request_accepted_witness :
  let r := {| sent := true; ts := 10%Q; confirmed := false; token := "t1" |} in
  let w := worker pending_sent in
  status_get w "a@x.com" = Some (0%nat, r)
  /\ ((exists ans, (_handle_status w "a@x.com" (79 # 2)).2 = Some ans
                   /\ ans_timer ans = 0)
      <-> (_handle_request w "a@x.com" (79 # 2) "t2").2 = true).
Proof.
  split; [vm_compute; reflexivity|].
  apply (timer_zero_iff_request_accepted (worker pending_sent) "a@x.com"
           (79 # 2) "t2" 0%nat
           {| sent := true; ts := 10%Q; confirmed := false; token := "t1" |}).
  - vm_compute; reflexivity.
  - reflexivity.
Defined.

(** X5.  The timer is never negative, and it does not exceed
    [RESEND_WINDOW] as long as the clock reads no earlier than the time of
    sending. *)
Theorem timer_range (w : MailWorker) (a : string) (now : Q)
    (l : loc) (r : Rec) :
  status_get w a = Some (l, r) ->
  exists ans, (_handle_status w a now).2 = Some ans
              /\ 0 <= ans_timer ans
              /\ ((ts r <= now)%Q -> ans_timer ans <= RESEND_WINDOW).
Proof.
  intros Hget. unfold _handle_status. rewrite Hget. simpl.
  eexists. split; [done|]. simpl. unfold remain_of.
  destruct (sent r); [|done]. split; [lia|]. intros Hle.
  assert (0 <= now - ts r)%Q as Hpos.
  { unfold Qminus. by rewrite <- Qle_minus_iff. }
  destruct (int_of_float_nonneg _ Hpos) as [_ Hlt].
  assert (0 < int_of_float (now - ts r) + 1).
  { rewrite Zlt_Qlt. eapply Qle_lt_trans; [exact Hpos|exact Hlt]. }
  unfold RESEND_WINDOW. lia.
Qed.

Lemma timer_range_witness :
  let r := {| sent := true; ts := 10%Q; confirmed := false; token := "t1" |} in
  let w := worker pending_sent in
  status_get w "a@x.com" = Some (0%nat, r)
  /\ exists ans, (_handle_status w "a@x.com" (21 # 2)).2 = Some ans
                 /\ 0 <= ans_timer ans
                 /\ ((ts r <= 21 # 2)%Q -> ans_timer ans <= RESEND_WINDOW).
Proof.
  split; [vm_compute; reflexivity|].
  apply (timer_range (worker pending_sent) "a@x.com" (21 # 2) 0%nat
           {| sent := true; ts := 10%Q; confirmed := false; token := "t1" |}).
  vm_compute; reflexivity.
Defined.

(** With the clock behind the time of sending the timer does exceed the
    window. *)
Example timer_clock_set_back :
  (_handle_status (worker pending_sent) "a@x.com" 5%Q).2
  = Some {| ans_sent := 1; ans_timer := 35; ans_confirmed := 0 |}.
Proof. vm_compute; reflexivity. Qed.

(** * Further properties of the sender *)

Lemma _build_message_Some to_ok email tok msg :
  _build_message to_ok email tok = Some msg ->
  msg = {| msg_to := email; msg_link := BASE_URL +:+ tok |}.
Proof.
  unfold _build_message. destruct (to_ok email); [|done]. by intros [= <-].
Qed.

(** The messages delivered were built, in order, for some of the items of
    the batch. *)
Lemma send_items_origin to_ok h outcomes batch :
  exists acc,
    acc `sublist_of` batch
    /\ delivered (send_items to_ok h outcomes batch)
       = map (fun item : string * nat =>
                {| msg_to := item.1;
                   msg_link := BASE_URL +:+ token_at h item.2 |}) acc.
Proof.
  revert outcomes. induction batch as [|[e l] batch IH]; intros outcomes.
  - by exists [].
  - simpl.
    destruct (_build_message to_ok e (token_at h l)) as [msg|] eqn:Hmsg.
    + apply _build_message_Some in Hmsg as ->.
      destruct (IH (tl outcomes)) as (acc & Hsub & Hacc).
      destruct (hd Returns outcomes); simpl.
      * exists ((e, l) :: acc). split; [by constructor|]. simpl.
        by rewrite Hacc.
      * exists acc. split; [by constructor|done].
      * exists []. split; [apply sublist_nil_l|done].
    + exists []. split; [apply sublist_nil_l|done].
Qed.




(** An address the e-mail library refuses as a [To] header: the exception
    leaves [_send_batch] before anything is sent for it or for the items
    behind it, no record is marked, and the sender task is over. *)
Example dispatch_line_break :
  let evs := [EvRequest "a@x.com" 0%Q "t1";
              EvRequest "
b@x.com" 1%Q "t2";
              EvRequest "c@x.com" 2%Q "t3";
              EvWake; EvSendEnd smtp_line_break 10%Q; EvWake] in
  (run boot evs).2
  = [OutBool true; OutBool true; OutBool true; OutNone;
     OutSend {| delivered :=
                  [{| msg_to := "a@x.com";
                      msg_link := "https://example.com/confirm?token=t1" |}];
                printed := []; returned := false |};
     OutNone]
  /\ sender (run boot evs).1 = Stopped
  /\ (sent <$> heap (worker (run boot evs).1)) = [false; false; false].
Proof. repeat split; vm_compute; reflexivity. Qed.

Lemma step_stopped s ev :
  sender s = Stopped ->
  sender (step s ev).1 = Stopped
  /\ no_send [(step s ev).2] = true
  /\ forall l r, heap (worker s) !! l = Some r ->
                 exists r', heap (worker (step s ev).1) !! l = Some r'
                            /\ sent r' = sent r /\ ts r' = ts r.
Proof.
  intros Hst. destruct (is_task ev) eqn:Htask.
  - split; [by rewrite task_sender|]. split; [by destruct ev|].
    intros l r Hr.
    destruct (task_keeps_records s ev l r Htask Hr) as (r' & ? & _ & ? & ? & _).
    by exists r'.
  - destruct ev; try done; simpl.
    + unfold wake. rewrite Hst. split; [done|]. split; [done|].
      intros l r Hr. by exists r.
    + unfold send_end. rewrite Hst. simpl. split; [done|]. split; [done|].
      intros l r Hr. by exists r.
Qed.

(** X7.  Nothing catches an exception that leaves [_send_batch] (a failed
    connection, login or closing): the cycle marks no record, and the
    sender task is over for good.  Whatever happens afterwards, no batch is
    ever sent again and the sending mark and time of every record
    dictionary stay as they were. *)
Theorem sender_stopped_for_good (s : System) (batch : list (string * nat))
    (smtp : SMTP) (now : Q) (evs : list Event) :
  sender s = Sending batch ->
  returned (_send_batch smtp (heap (worker s)) batch) = false ->
  let s1 := (step s (EvSendEnd smtp now)).1 in
  worker s1 = worker s
  /\ sender (run s1 evs).1 = Stopped
  /\ no_send (run s1 evs).2 = true
  /\ forall l r, heap (worker s) !! l = Some r ->
                 exists r', heap (worker (run s1 evs).1) !! l = Some r'
                            /\ sent r' = sent r /\ ts r' = ts r.
Proof.
  intros Hsd Hret s1.
  assert (worker s1 = worker s /\ sender s1 = Stopped) as [Hw Hst].
  { subst s1. simpl. unfold send_end. by rewrite Hsd, Hret. }
  split; [done|]. rewrite <- Hw. clearbody s1. clear Hw Hsd Hret.
  revert s1 Hst. induction evs as [|ev evs IH]; intros s1 Hst.
  - repeat split; [done|]. intros l r Hr. by exists r.
  - destruct (step_stopped s1 ev Hst) as (Hst' & Hns & Hkeep).
    destruct (IH _ Hst') as (IH1 & IH2 & IH3).
    cbn [run fst snd]. split; [done|]. split.
    + simpl in Hns |- *. rewrite andb_true_r in Hns. by rewrite Hns.
    + intros l r Hr. destruct (Hkeep l r Hr) as (r1 & Hr1 & Hs1 & Ht1).
      destruct (IH3 l r1 Hr1) as (r' & Hr' & Hs' & Ht').
      exists r'. split; [done|]. split; congruence.
Qed.

Lemma sender_stopped_for_good_witness :
  let smtp := {| to_header := fun _ => true; connect := true;
                 login := false; send_message := [];
                 quit := true |} in
  let s := wake two_unsent in
  let batch := [("a@x.com", 0%nat); ("b@x.com", 1%nat)] in
  let evs := [EvWake; EvRequest "c@x.com" 20%Q "t3"; EvWake;
              EvSendEnd smtp_ok 30%Q; EvConfirm "t1"] in
  let s1 := (step s (EvSendEnd smtp 10%Q)).1 in
  sender s = Sending batch
  /\ returned (_send_batch smtp (heap (worker s)) batch) = false
  /\ worker s1 = worker s
  /\ sender (run s1 evs).1 = Stopped
  /\ no_send (run s1 evs).2 = true
  /\ forall l r, heap (worker s) !! l = Some r ->
                 exists r', heap (worker (run s1 evs).1) !! l = Some r'
                            /\ sent r' = sent r /\ ts r' = ts r.
Proof.
  split; [vm_compute; reflexivity|]. split; [reflexivity|].
  apply (sender_stopped_for_good (wake two_unsent)
           [("a@x.com", 0%nat); ("b@x.com", 1%nat)]
           {| to_header := fun _ => true; connect := true;
              login := false; send_message := [];
              quit := true |} 10%Q
           [EvWake; EvRequest "c@x.com" 20%Q "t3"; EvWake;
            EvSendEnd smtp_ok 30%Q; EvConfirm "t1"]).
  - vm_compute; reflexivity.
  - reflexivity.
Defined.

(** * No link is mailed twice *)

(** ** The record dictionaries and their tokens *)

Lemma dict_pop_sublist {V} k (d : list (string * V)) :
  dict_pop k d `sublist_of` d.
Proof.
  induction d as [|[k' v] d IH]; simpl; [done|].
  destruct (String.eqb k' k); by constructor.
Qed.

Lemma filter_sublist {A} (f : A -> bool) (xs : list A) :
  List.filter f xs `sublist_of` xs.
Proof.
  induction xs as [|x xs IH]; simpl; [done|].
  destruct (f x); by constructor.
Qed.

Lemma dict_set_In {V} k (v : V) d x :
  In x (dict_set k v d) -> x = (k, v) \/ In x d.
Proof.
  induction d as [|[k' v'] d IH]; simpl.
  - intros [<-|[]]. by left.
  - destruct (String.eqb k' k); simpl; intros [<-|H]; auto.
    destruct (IH H); auto.
Qed.

Lemma dict_set_values {V} k (v : V) d :
  NoDup d.*2 -> v ∉ d.*2 -> NoDup (dict_set k v d).*2.
Proof.
  induction d as [|[k' v'] d IH]; simpl.
  - intros _ _. apply NoDup_singleton.
  - rewrite NoDup_cons, not_elem_of_cons. intros [Hv' Hd] [Hne Hv].
    destruct (String.eqb k' k); simpl; apply NoDup_cons.
    + done.
    + split; [|by apply IH].
      intros ((k0 & v0) & -> & Hin%list_elem_of_In)%list_elem_of_fmap.
      apply dict_set_In in Hin as [[= <- <-]|Hin]; [done|].
      apply Hv'. apply list_elem_of_fmap. exists (k0, v0).
      split; [done|]. by apply list_elem_of_In.
Qed.

Lemma Store_init : Store [] init.
Proof. split; try done. simpl. constructor. Qed.

Lemma Store_mono used used' w :
  (forall t, In t used -> In t used') -> Store used w -> Store used' w.
Proof.
  intros Hsub [Hu Ht Hl Hb]. split; try done.
  intros l r Hr. eapply Hsub, Hu, Hr.
Qed.

(** Replacing record dictionaries by ones with the same tokens. *)
Lemma Store_same_tokens used h d m h' :
  length h' = length h ->
  (forall l r', h' !! l = Some r' ->
                exists r, h !! l = Some r /\ token r = token r') ->
  Store used {| heap := h; _status := d; _token_map := m |} ->
  Store used {| heap := h'; _status := d; _token_map := m |}.
Proof.
  intros Hlen Hsame [Hu Ht Hl Hb]. simpl in *. split; simpl.
  - intros l r' (r & Hr & <-)%Hsame. by eapply Hu.
  - intros l1 l2 r1' r2' (r1 & Hr1 & <-)%Hsame (r2 & Hr2 & <-)%Hsame.
    by eapply Ht.
  - done.
  - intros e l Hin. rewrite Hlen. by eapply Hb.
Qed.

Lemma store_new_Store used w a tok :
  Store used w -> ~ In tok used -> Store (tok :: used) (store_new w a tok).1.
Proof.
  intros [Hu Ht Hl Hb] Hfresh.
  set (new := {| sent := false; ts := 0%Q; confirmed := false;
                 token := tok |}).
  assert (forall l r, (heap w ++ [new]) !! l = Some r ->
            heap w !! l = Some r \/ l = length (heap w) /\ r = new) as Hcase.
  { intros l r [H|[Hge H]]%lookup_app_Some; [by left|right].
    destruct (l - length (heap w))%nat as [|n] eqn:E; [|done].
    injection H as <-. split; [lia|done]. }
  split; simpl.
  - intros l r [Hr|[_ ->]]%Hcase; [right; by eapply Hu|by left].
  - intros l1 l2 r1 r2 [Hr1|[-> ->]]%Hcase [Hr2|[-> ->]]%Hcase Heq;
      [by eapply Ht| | |done]; exfalso; apply Hfresh;
      change tok with (token new).
    + rewrite <- Heq. by eapply Hu.
    + rewrite Heq. by eapply Hu.
  - apply dict_set_values; [done|].
    intros ((e & l) & Heq & Hin%list_elem_of_In)%list_elem_of_fmap.
    apply Hb in Hin. simpl in Heq. lia.
  - intros e l [[= -> ->]|Hin]%dict_set_In; rewrite length_app; simpl;
      [lia|]. apply Hb in Hin. lia.
Qed.

Lemma task_Store used s ev :
  is_task ev = true ->
  Store used (worker s) ->
  (forall t, In t (request_tokens [ev]) -> ~ In t used) ->
  Store (request_tokens [ev] ++ used) (worker (step s ev).1).
Proof.
  intros Htask Hst Hfresh.
  destruct ev as [email now tok|email now|tok| |smtp now]; try done; simpl.
  - assert (~ In tok used) as Hf by (apply Hfresh; by left).
    assert (Store (tok :: used) (worker s)) as Hweak.
    { eapply Store_mono; [|done]. intros t Ht. by right. }
    unfold _handle_request. handler_cases; try done.
    + apply (store_new_Store used (pop_token (worker s) (token r)) email tok);
        [|done]. by destruct Hst.
    + by apply (store_new_Store used (worker s) email tok).
  - unfold _handle_status. handler_cases; try done.
    destruct Hst as [Hu Ht Hl Hb]. split; simpl; try done.
    + eapply sublist_NoDup; [done|]. apply fmap_sublist, dict_pop_sublist.
    + intros e l0 Hin%list_elem_of_In. apply (Hb e l0), list_elem_of_In.
      eapply elem_of_sublist; [done|apply dict_pop_sublist].
  - assert (Store used (pop_token (worker s) tok)) as Hp by by destruct Hst.
    unfold _handle_confirm. handler_cases; try exact Hp.
    unfold status_get in Hget. simpl in Hget.
    destruct (dict_get a (_status (worker s))) as [l1|]; [|done].
    destruct (heap (worker s) !! l1) as [r1|] eqn:Hr1; [|done].
    injection Hget as -> ->.
    apply Store_same_tokens with (h := heap (worker s)).
    + apply length_insert.
    + intros l0 r' [(-> & <- & _)|[_ H]]%list_lookup_insert_Some.
      * by exists r.
      * by exists r'.
    + exact Hp.
Qed.

Lemma send_end_Store used smtp now s :
  Store used (worker s) -> Store used (worker (send_end smtp now s).1).
Proof.
  intros Hst. unfold send_end.
  destruct (sender s) as [|batch|]; [done| |done].
  destruct (returned _); [|done]. simpl.
  apply Store_same_tokens with (h := heap (worker s)).
  - apply mark_batch_length.
  - intros l r' Hr'.
    destruct (mark_batch_lookup now batch (heap (worker s)) l)
      as [[Hn _]|(r & r1 & Hr & Hr1 & Ht & _)]; [congruence|].
    exists r. rewrite Hr' in Hr1. injection Hr1 as <-. done.
  - by destruct (worker s).
Qed.

Lemma step_Store used s ev :
  Store used (worker s) ->
  (forall t, In t (request_tokens [ev]) -> ~ In t used) ->
  Store (request_tokens [ev] ++ used) (worker (step s ev).1).
Proof.
  intros Hst Hfresh. destruct (is_task ev) eqn:Htask.
  - by apply task_Store.
  - destruct ev; try done; simpl.
    + by rewrite wake_worker.
    + by apply send_end_Store.
Qed.

(** ** What has been mailed *)

Lemma mark_batch_sent now batch h l r :
  h !! l = Some r ->
  exists r', mark_batch now batch h !! l = Some r'
             /\ token r' = token r /\ (sent r = true -> sent r' = true).
Proof.
  revert h r. induction batch as [|item batch IH]; intros h r Hr; simpl.
  - by exists r.
  - destruct (decide (item.2 = l)) as [Heq|Hne].
    + destruct (IH (alter (set_sent now) item.2 h) (set_sent now r))
        as (r' & Hr' & Ht & Hs).
      { rewrite Heq, list_lookup_alter_eq. by rewrite Hr. }
      exists r'. split; [done|]. split; [done|]. intros _. by apply Hs.
    + apply IH. by rewrite list_lookup_alter_ne.
Qed.

Lemma Mailed_init : Mailed boot [].
Proof. split; [constructor|done|done]. Qed.

Lemma task_Mailed s ev links :
  is_task ev = true -> Mailed s links -> Mailed (step s ev).1 links.
Proof.
  intros Htask [Hnd Hh Hb]. split; [done|..].
  - intros link (l & r & Hr & Hlink & Hs)%Hh.
    destruct (task_keeps_records s ev l r Htask Hr)
      as (r' & Hr' & Ht & Hs' & _).
    exists l, r'. split; [done|]. split; [congruence|].
    rewrite task_sender by done. intros H. rewrite Hs'. by apply Hs.
  - intros batch. rewrite task_sender by done.
    intros [Hndb Hitems]%Hb. split; [done|].
    intros e l (r & Hr & Hs)%Hitems.
    destruct (task_keeps_records s ev l r Htask Hr)
      as (r' & Hr' & _ & Hs' & _).
    exists r'. split; [done|]. congruence.
Qed.

Lemma wake_Mailed used s links :
  Store used (worker s) -> Mailed s links -> Mailed (wake s) links.
Proof.
  intros [_ _ Hl _] Hm. pose proof Hm as [Hnd Hh Hb]. unfold wake.
  destruct (sender s) eqn:Hsd; try done.
  destruct (select_batch (worker s)) as [|item batch] eqn:Hsel; [done|].
  split; [done|..]; simpl.
  - intros link (l & r & Hr & Hlink & Hs)%Hh. exists l, r.
    split; [done|]. split; [done|]. intros _. apply Hs. congruence.
  - intros batch0 [= <-]. rewrite <- Hsel. split.
    + eapply sublist_NoDup; [exact Hl|].
      apply fmap_sublist, filter_sublist.
    + intros e l (_ & r & Hr & Hs & _)%select_batch_spec. by exists r.
Qed.

(** The links of the messages one [_send_batch] delivers. *)
Lemma send_batch_links smtp h batch :
  exists acc,
    acc `sublist_of` batch
    /\ map msg_link (delivered (_send_batch smtp h batch))
       = (fun l => BASE_URL +:+ token_at h l) <$> acc.*2.
Proof.
  unfold _send_batch. destruct (connect smtp && login smtp); simpl.
  - destruct (send_items_origin (to_header smtp) h (send_message smtp) batch)
      as (acc & Hsub & ->).
    exists acc. split; [done|]. rewrite map_map.
    by rewrite <- list_fmap_compose.
  - exists []. split; [apply sublist_nil_l|done].
Qed.

Lemma send_end_Mailed used smtp now s links :
  Store used (worker s) ->
  Mailed s links ->
  Mailed (send_end smtp now s).1
         (links ++ delivered_links [(send_end smtp now s).2]).
Proof.
  intros [_ Htok _ _] Hm. pose proof Hm as [Hnd Hh Hb]. unfold send_end.
  destruct (sender s) as [|batch|] eqn:Hsd;
    [simpl; by rewrite app_nil_r| |simpl; by rewrite app_nil_r].
  destruct (Hb batch eq_refl) as [Hndb Hitems].
  set (h := heap (worker s)) in *.
  destruct (send_batch_links smtp h batch) as (acc & Hsub & Hlinks).
  assert (forall l, l ∈ acc.*2 ->
            exists r, h !! l = Some r /\ sent r = false
                      /\ token_at h l = token r) as Hacc.
  { intros l ((e & l') & -> & Hin)%list_elem_of_fmap.
    destruct (Hitems e l') as (r & Hr & Hs).
    { apply list_elem_of_In. by eapply elem_of_sublist. }
    exists r. split; [done|]. split; [done|]. simpl.
    unfold token_at. by rewrite Hr. }
  assert (NoDup acc.*2) as Hndacc.
  { eapply sublist_NoDup; [exact Hndb|]. by apply fmap_sublist. }
  assert (NoDup (links
                 ++ ((fun l => BASE_URL +:+ token_at h l) <$> acc.*2)))
    as Hnd'.
  { apply NoDup_app. split; [done|]. split.
    - intros link Hin%list_elem_of_In (l & -> & Hl)%list_elem_of_fmap.
      destruct (Hacc l Hl) as (r & Hr & Hs & Ht).
      destruct (Hh _ Hin) as (l0 & r0 & Hr0 & Heq & Hs0).
      rewrite Ht in Heq. apply String.app_inj in Heq.
      assert (l = l0) as <- by by eapply Htok.
      rewrite Hr in Hr0. injection Hr0 as <-.
      rewrite Hs0 in Hs; [done|]. congruence.
    - apply NoDup_fmap_2_strong; [|done].
      intros l1 l2 Hl1 Hl2 Heq%String.app_inj.
      destruct (Hacc l1 Hl1) as (r1 & Hr1 & _ & Ht1).
      destruct (Hacc l2 Hl2) as (r2 & Hr2 & _ & Ht2).
      eapply Htok; [done..|congruence]. }
  assert (forall res,
            delivered_links [OutSend res]
            = map msg_link (delivered res)) as Hout.
  { intros res. simpl. by rewrite app_nil_r. }
  destruct (returned (_send_batch smtp h batch)) eqn:Hret;
    cbn [fst snd]; rewrite Hout, Hlinks; (split; [done|..]); simpl.
  - intros link [Hin|Hin%list_elem_of_In]%in_app_iff.
    + destruct (Hh _ Hin) as (l & r & Hr & Heq & Hs).
      destruct (mark_batch_sent now batch h l r Hr) as (r' & Hr' & Ht & Hs').
      exists l, r'. split; [done|]. split; [congruence|].
      intros _. apply Hs', Hs. congruence.
    + apply list_elem_of_fmap in Hin as (l & -> & Hl).
      destruct (Hacc l Hl) as (r & Hr & _ & Ht).
      apply list_elem_of_fmap in Hl as ((e & l') & Hl' & Hin).
      simpl in Hl'. subst l'.
      destruct (mark_batch_marks now batch h e l) as (r' & Hr' & Hs' & _).
      { apply list_elem_of_In. by eapply elem_of_sublist. }
      { by eapply lookup_lt_Some. }
      destruct (mark_batch_sent now batch h l r Hr) as (r1 & Hr1 & Ht1 & _).
      rewrite Hr' in Hr1. injection Hr1 as <-.
      exists l, r'. split; [done|]. split; [congruence|done].
  - done.
  - intros link [Hin|Hin%list_elem_of_In]%in_app_iff.
    + destruct (Hh _ Hin) as (l & r & Hr & Heq & _).
      exists l, r. by repeat split.
    + apply list_elem_of_fmap in Hin as (l & -> & Hl).
      destruct (Hacc l Hl) as (r & Hr & _ & Ht).
      exists l, r. split; [done|]. split; [congruence|done].
  - done.
Qed.

Lemma delivered_links_app outs1 outs2 :
  delivered_links (outs1 ++ outs2)
  = delivered_links outs1 ++ delivered_links outs2.
Proof.
  induction outs1 as [|o outs1 IH]; simpl; [done|].
  destruct o; try done. by rewrite IH, app_assoc.
Qed.

Lemma step_Mailed used s ev links :
  Store used (worker s) ->
  Mailed s links ->
  Mailed (step s ev).1 (links ++ delivered_links [(step s ev).2]).
Proof.
  intros Hst Hm. destruct (is_task ev) eqn:Htask.
  - replace (delivered_links [(step s ev).2]) with (@nil string)
      by by destruct ev.
    rewrite app_nil_r. by apply task_Mailed.
  - destruct ev; try done; simpl.
    + rewrite app_nil_r. by eapply wake_Mailed.
    + by eapply send_end_Mailed.
Qed.

Lemma run_Mailed evs s used links :
  Store used (worker s) ->
  Mailed s links ->
  NoDup (request_tokens evs) ->
  (forall t, In t (request_tokens evs) -> ~ In t used) ->
  Mailed (run s evs).1 (links ++ delivered_links (run s evs).2).
Proof.
  revert s used links. induction evs as [|ev evs IH];
    intros s used links Hst Hm Hnd Hfresh; simpl run.
  - simpl. by rewrite app_nil_r.
  - rewrite request_tokens_cons in Hnd, Hfresh.
    apply NoDup_app in Hnd as (Hnd1 & Hdisj & Hnd2).
    cbn [fst snd].
    change ((step s ev).2 :: (run (step s ev).1 evs).2)
      with ([(step s ev).2] ++ (run (step s ev).1 evs).2).
    rewrite delivered_links_app, app_assoc.
    apply (IH _ (request_tokens [ev] ++ used)).
    + apply step_Store; [done|].
      intros t Ht. apply Hfresh, in_app_iff. by left.
    + by eapply step_Mailed.
    + done.
    + intros t Ht [Hin|Hin]%in_app_iff.
      * apply (Hdisj t); by apply list_elem_of_In.
      * apply (Hfresh t); [|done]. apply in_app_iff. by right.
Qed.

(** X8.  Over any run from the initial worker in which the generator never
    returns the same token twice, the sender mails no link a second time:
    the links of all the messages delivered, over all the cycles of the
    run, are pairwise different.  A token whose delivery failed, or
    succeeded, is never sent again. *)
Theorem no_link_mailed_twice (evs : list Event) :
  fresh_tokens evs = true ->
  NoDup (delivered_links (run boot evs).2).
Proof.
  intros Hfresh%bool_decide_eq_true.
  apply (mailed_nodup (run boot evs).1).
  apply (run_Mailed evs boot [] []);
    [apply Store_init|apply Mailed_init|done|by intros t _ []].
Qed.

Lemma no_link_mailed_twice_witness :
  let evs := [EvRequest "a@x.com" 0%Q "t1"; EvRequest "b@x.com" 1%Q "t2";
              EvWake; EvRequest "a@x.com" 9%Q "t3";
              EvSendEnd smtp_second_fails 10%Q;
              EvWake; EvSendEnd smtp_ok 20%Q;
              EvRequest "b@x.com" 45%Q "t4";
              EvWake; EvSendEnd smtp_ok 50%Q] in
  fresh_tokens evs = true
  /\ delivered_links (run boot evs).2
     = ["https://example.com/confirm?token=t1";
        "https://example.com/confirm?token=t3";
        "https://example.com/confirm?token=t4"]
  /\ NoDup (delivered_links (run boot evs).2).
Proof.
  split; [vm_compute; reflexivity|]. split; [vm_compute; reflexivity|].
  apply (no_link_mailed_twice
           [EvRequest "a@x.com" 0%Q "t1"; EvRequest "b@x.com" 1%Q "t2";
            EvWake; EvRequest "a@x.com" 9%Q "t3";
            EvSendEnd smtp_second_fails 10%Q;
            EvWake; EvSendEnd smtp_ok 20%Q;
            EvRequest "b@x.com" 45%Q "t4";
            EvWake; EvSendEnd smtp_ok 50%Q]).
  vm_compute; reflexivity.
Defined.

(** * The link that is mailed can be redeemed *)

Lemma dict_get_of_In {V} k (v : V) d :
  NoDup d.*1 -> In (k, v) d -> dict_get k d = Some v.
Proof.
  induction d as [|[k' v'] d IH]; simpl; [done|].
  rewrite NoDup_cons. intros [Hk Hd] [[= -> ->]|Hin].
  - by rewrite String.eqb_refl.
  - destruct (String.eqb k' k) eqn:E; [|by apply IH].
    apply String.eqb_eq in E as ->. exfalso. apply Hk.
    apply list_elem_of_fmap. exists (k, v). split; [done|].
    by apply list_elem_of_In.
Qed.

(** X9.  When the sender wakes in a state reached from the initial worker
    (tokens never repeating) and no task is handled while it sends, every
    message it delivers to a non-empty address carries the link of the
    token currently indexed for that address, and after the cycle a confirm
    task for that token is answered [True]. *)
Theorem mailed_link_redeemable (evs : list Event) (smtp : SMTP) (now : Q)
    (res : SendResult) (m : EmailMessage) :
  fresh_tokens evs = true ->
  let s := (run boot evs).1 in
  sender s = Sleeping ->
  (run s [EvWake; EvSendEnd smtp now]).2 = [OutNone; OutSend res] ->
  In m (delivered res) ->
  msg_to m <> "" ->
  exists t,
    msg_link m = BASE_URL +:+ t
    /\ _token_map (worker s) !! t = Some (msg_to m)
    /\ (_handle_confirm
          (worker (run s [EvWake; EvSendEnd smtp now]).1) t).2 = true.
Proof.
  intros Hfresh%bool_decide_eq_true s Hsl Hout Hin Hne.
  set (w := worker s).
  assert (Complete (request_tokens evs ++ []) w) as [_ _ Hlive].
  { apply run_complete; [apply Sound_init|apply Complete_init|done|].
    by intros t _ []. }
  assert (NoDup (_status w).*1) as Hkeys.
  { apply run_keys_unique. simpl. constructor. }
  assert (res = _send_batch smtp (heap w) (select_batch w)
          /\ _token_map (worker (run s [EvWake; EvSendEnd smtp now]).1)
             = _token_map w) as [-> Hmap].
  { revert Hout. cbn [run step fst snd]. unfold wake. rewrite Hsl. fold w.
    destruct (select_batch w) as [|item batch] eqn:Hsel.
    - unfold send_end. by rewrite Hsl.
    - unfold send_end. cbn [sender worker]. fold w.
      destruct (returned _); cbn [fst snd]; by intros [= <-]. }
  assert (exists e l r, m = {| msg_to := e;
                               msg_link := BASE_URL +:+ token r |}
                        /\ In (e, l) (_status w) /\ heap w !! l = Some r
                        /\ confirmed r = false)
    as (e & l & r & -> & Hst & Hr & Hc).
  { unfold _send_batch in Hin. destruct (connect smtp && login smtp); [|done].
    cbn [delivered] in Hin.
    destruct (send_items_origin (to_header smtp) (heap w) (send_message smtp)
                (select_batch w)) as (acc & Hsub & Hacc).
    rewrite Hacc in Hin.
    apply in_map_iff in Hin as ((e & l) & <- & Hacc'). simpl.
    assert (In (e, l) (select_batch w)) as Hsel.
    { apply list_elem_of_In. eapply elem_of_sublist;
        [by apply list_elem_of_In|done]. }
    apply select_batch_spec in Hsel as (Hst & r & Hr & _ & Hc).
    exists e, l, r. unfold token_at. by rewrite Hr. }
  cbn [msg_to msg_link] in Hne |- *.
  assert (live w e = Some r) as Hl.
  { apply live_Some. exists l. split; [|done]. by apply dict_get_of_In. }
  pose proof (Hlive e r Hl Hc Hne) as Hidx.
  exists (token r). split; [done|]. split; [done|].
  assert (worker (run s [EvWake; EvSendEnd smtp now]).1
          = worker (run boot (evs ++ [EvWake; EvSendEnd smtp now])).1) as Hrun.
  { by rewrite run_app. }
  rewrite Hrun.
  apply confirm_true_iff_indexed_nonempty. exists e.
  rewrite <- Hrun, Hmap. done.
Qed.

Lemma mailed_link_redeemable_witness :
  let evs := [EvRequest "a@x.com" 0%Q "t1"; EvRequest "b@x.com" 1%Q "t2"] in
  let s := (run boot evs).1 in
  let res := {| delivered :=
                  [{| msg_to := "a@x.com";
                      msg_link := "https://example.com/confirm?token=t1" |}];
                printed := ["b@x.com"]; returned := true |} in
  let m := {| msg_to := "a@x.com";
              msg_link := "https://example.com/confirm?token=t1" |} in
  fresh_tokens evs = true
  /\ sender s = Sleeping
  /\ (run s [EvWake; EvSendEnd smtp_second_fails 10%Q]).2
     = [OutNone; OutSend res]
  /\ In m (delivered res)
  /\ msg_to m <> ""
  /\ exists t,
       msg_link m = BASE_URL +:+ t
       /\ _token_map (worker s) !! t = Some (msg_to m)
       /\ (_handle_confirm
             (worker (run s [EvWake; EvSendEnd smtp_second_fails 10%Q]).1)
             t).2 = true.
Proof.
  split; [vm_compute; reflexivity|]. split; [reflexivity|].
  split; [vm_compute; reflexivity|]. split; [simpl; by left|].
  split; [discriminate|].
  apply (mailed_link_redeemable
           [EvRequest "a@x.com" 0%Q "t1"; EvRequest "b@x.com" 1%Q "t2"]
           smtp_second_fails 10%Q
           {| delivered :=
                [{| msg_to := "a@x.com";
                    msg_link := "https://example.com/confirm?token=t1" |}];
              printed := ["b@x.com"]; returned := true |}
           {| msg_to := "a@x.com";
              msg_link := "https://example.com/confirm?token=t1" |}).
  - vm_compute; reflexivity.
  - reflexivity.
  - vm_compute; reflexivity.
  - simpl; by left.
  - discriminate.
Defined.

(** A request handled while the batch is being sent rotates the token, and
    the message that then goes out carries the token that is no longer
    indexed: the link of the delivered mail is refused. *)
Example mailed_link_stale :
  let r := run boot [EvRequest "a@x.com" 0%Q "t1"; EvWake;
                     EvRequest "a@x.com" 9%Q "t2";
                     EvSendEnd smtp_ok 10%Q; EvConfirm "t1"] in
  r.2 = [OutBool true; OutNone; OutBool true;
         OutSend {| delivered :=
                      [{| msg_to := "a@x.com";
                          msg_link := "https://example.com/confirm?token=t1" |}];
                    printed := []; returned := true |};
         OutBool false].
Proof. vm_compute; reflexivity. Qed.

(** * The producer and the worker loop *)

Lemma serve_app gone w resolved q1 q2 :
  serve gone w resolved (q1 ++ q2)
  = if (serve gone w resolved q1).2
    then serve gone (serve gone w resolved q1).1.1
               (serve gone w resolved q1).1.2 q2
    else serve gone w resolved q1.
Proof.
  revert w resolved. induction q1 as [|[[t now] tok] q1 IH]; intros w resolved;
    [done|].
  cbn [app serve].
  destruct (run_task gone w resolved t now tok) as [w' [resolved'|]];
    [apply IH|done].
Qed.

Lemma set_result_refused gone resolved t v :
  ~ answerable gone resolved t ->
  set_result gone resolved (Task.fut t) v = None.
Proof.
  intros Hno. unfold set_result. destruct (Task.fut t) as [f|] eqn:Hf; [|done].
  destruct (bool_decide (f ∈ gone)) eqn:Hg; [done|].
  destruct (bool_decide (f ∈ resolved.*1)) eqn:Hd; [done|].
  exfalso. apply Hno. exists f.
  apply bool_decide_eq_false in Hg, Hd. done.
Qed.

Lemma set_result_accepted gone resolved t v f :
  Task.fut t = Some f -> f ∉ gone -> f ∉ resolved.*1 ->
  set_result gone resolved (Task.fut t) v = Some (resolved ++ [(f, v)]).
Proof.
  intros -> Hg Hd. unfold set_result.
  by rewrite (bool_decide_eq_false_2 _ Hg), (bool_decide_eq_false_2 _ Hd).
Qed.

(** X10.  A task whose future cannot take a result ends the worker loop.
    When the loop, still running, comes to a task with a known [op] whose
    future is missing, cancelled or already resolved, [set_result] raises
    and nothing in [run] catches it: no future is resolved from then on,
    whatever is queued behind the task.  The request and confirm handlers
    have done their work by then and the worker keeps it; the cleanup of a
    status task is skipped. *)
Theorem loop_ends_at_dead_future (gone : list nat) (w : MailWorker)
    (resolved : list (nat * Output)) (pre post : list (Task.t * Q * string))
    (t : Task.t) (now : Q) (tok : string) :
  let r := serve gone w resolved pre in
  r.2 = true ->
  known_op t = true ->
  ~ answerable gone r.1.2 t ->
  let r' := serve gone w resolved (pre ++ (t, now, tok) :: post) in
  r'.2 = false
  /\ r'.1.2 = r.1.2
  /\ (Task.op t = "request" ->
      r'.1.1 = (_handle_request r.1.1 (Task.email t) now tok).1)
  /\ (Task.op t = "status" -> r'.1.1 = r.1.1)
  /\ (forall tk, Task.op t = "confirm" -> Task.token t = Some tk ->
                 r'.1.1 = (_handle_confirm r.1.1 tk).1).
Proof.
  intros r Halive Hknown Hdead r'. subst r'. rewrite serve_app. fold r.
  rewrite Halive. destruct r as [[w1 resolved1] alive]. cbn [fst snd] in *.
  cbn [serve]. unfold run_task.
  pose proof (fun v => set_result_refused gone resolved1 t v Hdead) as Hraise.
  unfold known_op in Hknown.
  destruct (String.eqb (Task.op t) "request") eqn:Hreq.
  - apply String.eqb_eq in Hreq. rewrite Hraise. cbn [fst snd].
    repeat split; try done; rewrite Hreq; discriminate.
  - destruct (String.eqb (Task.op t) "status") eqn:Hst.
    + apply String.eqb_eq in Hst. rewrite Hraise. cbn [fst snd].
      repeat split; try done; rewrite Hst; discriminate.
    + destruct (String.eqb (Task.op t) "confirm") eqn:Hco; [|done].
      apply String.eqb_eq in Hco.
      destruct (Task.token t) as [tk|]; rewrite Hraise; cbn [fst snd];
        repeat split; try done; try (rewrite Hco; discriminate).
      by intros tk' _ [= <-].
Qed.

Lemma loop_ends_at_dead_future_witness :
  let gone := [2%nat] in
  let pre := [(email_confirm "a@x.com" 1%nat, 0%Q, "t1")] in
  let t := email_confirm "b@x.com" 2%nat in
  let post := [(is_confirm "a@x.com" 3%nat, 2%Q, "t3")] in
  let r := serve gone init [] pre in
  let r' := serve gone init [] (pre ++ (t, 1%Q, "t2") :: post) in
  r.2 = true
  /\ ~ answerable gone r.1.2 t
  /\ r'.2 = false
  /\ r'.1.2 = r.1.2
  /\ (Task.op t = "request" ->
      r'.1.1 = (_handle_request r.1.1 (Task.email t) 1%Q "t2").1)
  /\ (Task.op t = "status" -> r'.1.1 = r.1.1)
  /\ (forall tk, Task.op t = "confirm" -> Task.token t = Some tk ->
                 r'.1.1 = (_handle_confirm r.1.1 tk).1).
Proof.
  assert (~ answerable [2%nat]
            (serve [2%nat] init []
               [(email_confirm "a@x.com" 1%nat, 0%Q, "t1")]).1.2
            (email_confirm "b@x.com" 2%nat)) as Hdead.
  { intros (f & [= <-] & Hg & _). apply Hg. by left. }
  split; [reflexivity|]. split; [exact Hdead|].
  exact (loop_ends_at_dead_future [2%nat] init []
           [(email_confirm "a@x.com" 1%nat, 0%Q, "t1")]
           [(is_confirm "a@x.com" 3%nat, 2%Q, "t3")]
           (email_confirm "b@x.com" 2%nat) 1%Q "t2"
           eq_refl eq_refl Hdead).
Defined.

(** A caller gives up on its request (future 2) before the loop reaches it:
    the record for its address is stored all the same, the loop ends, and
    the status task queued behind is never answered. *)
Example serve_cancelled_caller :
  let r := serve [2%nat] init []
             [(email_confirm "a@x.com" 1%nat, 0%Q, "t1");
              (email_confirm "b@x.com" 2%nat, 1%Q, "t2");
              (is_confirm "a@x.com" 3%nat, 2%Q, "t3")] in
  r.1.2 = [(1%nat, OutBool true)]
  /\ r.2 = false
  /\ _status r.1.1 = [("a@x.com", 0%nat); ("b@x.com", 1%nat)].
Proof. repeat split; vm_compute; reflexivity. Qed.

Lemma run_task_answers gone w resolved t now tok f :
  known_op t = true ->
  Task.fut t = Some f -> f ∉ gone -> f ∉ resolved.*1 ->
  exists v, (run_task gone w resolved t now tok).2
            = Some (resolved ++ [(f, v)]).
Proof.
  intros Hknown Hf Hg Hd. unfold run_task.
  pose proof (fun v => set_result_accepted gone resolved t v f Hf Hg Hd)
    as Hset.
  unfold known_op in Hknown.
  destruct (String.eqb (Task.op t) "request"); [rewrite Hset; by eexists|].
  destruct (String.eqb (Task.op t) "status"); [rewrite Hset; by eexists|].
  destruct (String.eqb (Task.op t) "confirm"); [|done].
  destruct (Task.token t); rewrite Hset; by eexists.
Qed.

(** X15.  Tasks with a known [op] whose futures are all different and none
    cancelled, as the producer builds them when no caller gives up, are all
    served: the loop is still running at the end of the queue and the
    futures have been resolved one after the other in the order of the
    queue, each once. *)
Theorem serve_answers_in_order (gone : list nat) (w : MailWorker)
    (q : list (Task.t * Q * string)) (fs : list nat) :
  map (fun x : Task.t * Q * string => Task.fut x.1.1) q = Some <$> fs ->
  NoDup fs ->
  (forall f, f ∈ fs -> f ∉ gone) ->
  Forall (fun x : Task.t * Q * string => known_op x.1.1 = true) q ->
  (serve gone w [] q).2 = true
  /\ (serve gone w [] q).1.2.*1 = fs.
Proof.
  intros Hfs Hnd Hgone Hknown.
  assert (forall resolved,
            (forall f, f ∈ fs -> f ∉ resolved.*1) ->
            (serve gone w resolved q).2 = true
            /\ (serve gone w resolved q).1.2.*1 = resolved.*1 ++ fs) as Hgen.
  { clear -Hfs Hnd Hgone Hknown. revert w fs Hfs Hnd Hgone.
    induction Hknown as [|[[t now] tok] q Hk Hq IH];
      intros w fs Hfs Hnd Hgone resolved Hdone.
    - destruct fs; [|done]. simpl. by rewrite app_nil_r.
    - destruct fs as [|f fs]; [done|]. simpl in Hfs.
      injection Hfs as Hf Hfs. apply NoDup_cons in Hnd as [Hnf Hnd].
      cbn [fst] in Hk, Hf.
      destruct (run_task_answers gone w resolved t now tok f Hk Hf) as [v Hv].
      { apply Hgone. by left. }
      { apply Hdone. by left. }
      cbn [serve].
      destruct (run_task gone w resolved t now tok) as [w' o]. cbn [snd] in Hv.
      subst o.
      destruct (IH w' fs Hfs Hnd) with (resolved := resolved ++ [(f, v)])
        as [IH1 IH2].
      + intros f' Hf'. apply Hgone. by right.
      + intros f' Hf'. rewrite fmap_app. simpl.
        rewrite elem_of_app, list_elem_of_singleton.
        intros [Hin| ->]; [|done]. revert Hin. apply Hdone. by right.
      + split; [done|]. rewrite IH2, fmap_app. simpl.
        by rewrite <- app_assoc. }
  destruct (Hgen []) as [H1 H2]; [by intros f _ ?%elem_of_nil|].
  done.
Qed.

Lemma serve_answers_in_order_witness :
  let q := [(email_confirm "a@x.com" 1%nat, 0%Q, "t1");
            (mark_confirmed "t1" 2%nat, 1%Q, "t2");
            (is_confirm "a@x.com" 3%nat, 2%Q, "t3");
            (is_confirm "a@x.com" 4%nat, 3%Q, "t4")] in
  let fs := [1%nat; 2%nat; 3%nat; 4%nat] in
  (serve [7%nat] init [] q).1.2
  = [(1%nat, OutBool true); (2%nat, OutBool true);
     (3%nat, OutStatus (Some {| ans_sent := 0; ans_timer := 0;
                                ans_confirmed := 1 |}));
     (4%nat, OutStatus None)]
  /\ (serve [7%nat] init [] q).2 = true
  /\ (serve [7%nat] init [] q).1.2.*1 = fs.
Proof.
  split; [vm_compute; reflexivity|].
  apply (serve_answers_in_order [7%nat] init
           [(email_confirm "a@x.com" 1%nat, 0%Q, "t1");
            (mark_confirmed "t1" 2%nat, 1%Q, "t2");
            (is_confirm "a@x.com" 3%nat, 2%Q, "t3");
            (is_confirm "a@x.com" 4%nat, 3%Q, "t4")]
           [1%nat; 2%nat; 3%nat; 4%nat]).
  - reflexivity.
  - apply (bool_decide_unpack _). vm_compute. exact I.
  - intros f Hf Hin. apply list_elem_of_singleton in Hin as ->.
    revert Hf. apply (bool_decide_unpack _). vm_compute. exact I.
  - repeat constructor.
Defined.

(** * Requests from start to end *)

Lemma dict_pop_set {V} k (v : V) d :
  dict_get k d = None -> dict_pop k (dict_set k v d) = d.
Proof.
  induction d as [|[k' v'] d IH]; simpl.
  - by rewrite String.eqb_refl.
  - destruct (String.eqb k' k) eqn:E; [done|]. intros H. simpl.
    by rewrite E, IH.
Qed.

(** X11.  An accepted request starts the record over.  When the address has
    no confirmed record and a request for it is answered [True], a status
    task handled right after reports [sent = 0], [timer = 0] and
    [confirmed = 0], whatever the record was before, and the token just
    drawn is indexed under the address. *)
Theorem accepted_request_starts_over (w : MailWorker) (a : string)
    (now now' : Q) (tok : string) :
  (forall l r, status_get w a = Some (l, r) -> confirmed r = false) ->
  (_handle_request w a now tok).2 = true ->
  let w' := (_handle_request w a now tok).1 in
  _handle_status w' a now'
  = (w', Some {| ans_sent := 0; ans_timer := 0; ans_confirmed := 0 |})
  /\ _token_map w' !! tok = Some a.
Proof.
  intros Hnc Hacc w'.
  assert (forall w0, heap w0 = heap w -> _status w0 = _status w ->
            let w1 := (store_new w0 a tok).1 in
            _handle_status w1 a now'
            = (w1, Some {| ans_sent := 0; ans_timer := 0;
                           ans_confirmed := 0 |})
            /\ _token_map w1 !! tok = Some a) as Hnew.
  { intros w0 Hh Hs w1. split; [|apply lookup_insert_eq].
    unfold _handle_status, status_get. subst w1. simpl.
    rewrite dict_get_set_eq. by rewrite list_lookup_middle. }
  subst w'. revert Hacc. unfold _handle_request.
  destruct (status_get w a) as [[l r]|] eqn:Hget.
  - rewrite (Hnc l r eq_refl).
    destruct (sent r && _); [done|]. intros _. by apply Hnew.
  - intros _. by apply Hnew.
Qed.

Lemma accepted_request_starts_over_witness :
  let w := worker pending_sent in
  let w' := (_handle_request w "a@x.com" 40%Q "t2").1 in
  (forall l r, status_get w "a@x.com" = Some (l, r) -> confirmed r = false)
  /\ (_handle_request w "a@x.com" 40%Q "t2").2 = true
  /\ _handle_status w' "a@x.com" 41%Q
     = (w', Some {| ans_sent := 0; ans_timer := 0; ans_confirmed := 0 |})
  /\ _token_map w' !! "t2" = Some "a@x.com".
Proof.
  assert (forall l r, status_get (worker pending_sent) "a@x.com" = Some (l, r)
                      -> confirmed r = false) as Hnc.
  { intros l r H. vm_compute in H. by injection H as <- <-. }
  split; [exact Hnc|]. split; [vm_compute; reflexivity|].
  apply (accepted_request_starts_over (worker pending_sent) "a@x.com"
           40%Q 41%Q "t2" Hnc).
  vm_compute; reflexivity.
Defined.

(** X12.  A whole confirmation leaves no trace in the dictionaries.  For a
    non-empty address without a record and a token that is not indexed:
    request, confirm with the token, status.  The three are answered
    [True], [True] and [confirmed = 1], and afterwards [_status] and
    [_token_map] are exactly what they were before the request. *)
Theorem confirmation_leaves_no_trace (w : MailWorker) (a : string)
    (t0 t1 : Q) (tok : string) :
  dict_get a (_status w) = None ->
  _token_map w !! tok = None ->
  a <> "" ->
  let r1 := _handle_request w a t0 tok in
  let r2 := _handle_confirm r1.1 tok in
  let r3 := _handle_status r2.1 a t1 in
  r1.2 = true
  /\ r2.2 = true
  /\ (exists ans, r3.2 = Some ans /\ ans_confirmed ans = 1)
  /\ _status r3.1 = _status w
  /\ _token_map r3.1 = _token_map w.
Proof.
  intros Habs Hfree Hne r1 r2 r3.
  set (new := {| sent := false; ts := 0%Q; confirmed := false;
                 token := tok |}).
  assert (r1 = store_new w a tok) as Hr1.
  { subst r1. unfold _handle_request. by rewrite (status_get_None _ _ Habs). }
  assert (r2 = ({| heap := <[length (heap w) := set_confirmed new]>
                             (heap w ++ [new]);
                   _status := dict_set a (length (heap w)) (_status w);
                   _token_map := delete tok (<[tok := a]> (_token_map w)) |},
                true)) as Hr2.
  { subst r2. rewrite Hr1. unfold _handle_confirm. simpl.
    rewrite lookup_insert_eq. apply str_truthy_true in Hne as ->. simpl.
    unfold status_get. simpl. rewrite dict_get_set_eq.
    by rewrite list_lookup_middle. }
  assert (r3 = ({| heap := <[length (heap w) := set_confirmed new]>
                             (heap w ++ [new]);
                   _status := dict_pop a
                                (dict_set a (length (heap w)) (_status w));
                   _token_map :=
                     delete tok (delete tok (<[tok := a]> (_token_map w))) |},
                Some {| ans_sent := 0; ans_timer := 0;
                        ans_confirmed := 1 |})) as Hr3.
  { subst r3. rewrite Hr2. unfold _handle_status, status_get. simpl.
    rewrite dict_get_set_eq. rewrite list_lookup_insert_eq; [done|].
    rewrite length_app. simpl. lia. }
  rewrite Hr1, Hr2, Hr3. simpl. repeat split.
  - by eexists.
  - by apply dict_pop_set.
  - rewrite delete_delete_eq, delete_insert_eq. by apply delete_id.
Qed.

Lemma confirmation_leaves_no_trace_witness :
  let w := worker pending_sent in
  let r1 := _handle_request w "b@x.com" 11%Q "t2" in
  let r2 := _handle_confirm r1.1 "t2" in
  let r3 := _handle_status r2.1 "b@x.com" 12%Q in
  dict_get "b@x.com" (_status w) = None
  /\ _token_map w !! "t2" = None
  /\ r1.2 = true
  /\ r2.2 = true
  /\ (exists ans, r3.2 = Some ans /\ ans_confirmed ans = 1)
  /\ _status r3.1 = _status w
  /\ _token_map r3.1 = _token_map w.
Proof.
  split; [reflexivity|]. split; [vm_compute; reflexivity|].
  apply (confirmation_leaves_no_trace (worker pending_sent) "b@x.com"
           11%Q 12%Q "t2").
  - reflexivity.
  - vm_compute; reflexivity.
  - discriminate.
Defined.

(** * Tasks keep to their own address *)

(** X13.  A task changes the record of no address but its own.  In any
    state reached from the initial worker, a request or status task for
    one address, or a confirm task whose token is indexed under it (or not
    indexed at all), leaves the record of every other address exactly as
    it was. *)
Theorem task_leaves_other_records (evs : list Event) (ev : Event)
    (b : string) :
  let s := (run boot evs).1 in
  is_task ev = true ->
  about (worker s) ev <> Some b ->
  live (worker (step s ev).1) b = live (worker s) b.
Proof.
  intros s Htask Hab.
  assert (Sound (worker s)) as [Hok _] by apply run_sound, Sound_init.
  destruct ev as [email now tok|email now|tok| |smtp now]; try done;
    simpl in Hab |- *.
  - assert (email <> b) as Hne by congruence.
    unfold _handle_request.
    destruct (status_get (worker s) email) as [[l r]|].
    + destruct (confirmed r); [done|]. destruct (sent r && _); [done|].
      rewrite (live_store_new (pop_token (worker s) (token r))) by done.
      by rewrite decide_False.
    + rewrite (live_store_new (worker s)) by done. by rewrite decide_False.
  - assert (email <> b) as Hne by congruence.
    unfold _handle_status.
    destruct (status_get (worker s) email) as [[l r]|]; [|done].
    destruct (confirmed r); [|done]. cbn [fst].
    rewrite (live_cleanup (worker s)). by rewrite decide_False.
  - unfold _handle_confirm. handler_cases; try done.
    unfold status_get in Hget. simpl in Hget.
    destruct (dict_get a (_status (worker s))) as [l1|] eqn:Hd; [|done].
    destruct (heap (worker s) !! l1) as [r1|] eqn:Hr1; [|done].
    injection Hget as -> ->.
    rewrite (live_set_confirmed _ _ _ a) by done.
    rewrite decide_False by congruence. done.
Qed.

Lemma task_leaves_other_records_witness :
  let evs := [EvRequest "a@x.com" 0%Q "t1"; EvRequest "b@x.com" 1%Q "t2";
              EvWake; EvSendEnd smtp_ok 10%Q] in
  let s := (run boot evs).1 in
  about (worker s) (EvConfirm "t1") <> Some "b@x.com"
  /\ live (worker (step s (EvConfirm "t1")).1) "b@x.com"
     = live (worker s) "b@x.com".
Proof.
  assert (about (worker (run boot
                           [EvRequest "a@x.com" 0%Q "t1";
                            EvRequest "b@x.com" 1%Q "t2";
                            EvWake; EvSendEnd smtp_ok 10%Q]).1)
                (EvConfirm "t1") <> Some "b@x.com") as Hab.
  { vm_compute. discriminate. }
  split; [exact Hab|].
  exact (task_leaves_other_records
           [EvRequest "a@x.com" 0%Q "t1"; EvRequest "b@x.com" 1%Q "t2";
            EvWake; EvSendEnd smtp_ok 10%Q]
           (EvConfirm "t1") "b@x.com" eq_refl Hab).
Defined.

(** * After a cycle nothing is left to send *)

Lemma filter_none {A} (f : A -> bool) (xs : list A) :
  (forall x, In x xs -> f x = false) -> List.filter f xs = [].
Proof.
  induction xs as [|x xs IH]; intros H; simpl; [done|].
  rewrite (H x) by by left. apply IH. intros y Hy. apply H. by right.
Qed.

(** X14.  When a turn of the sender is over with no task handled meanwhile
    and the sender is still alive (it found nothing to select, or
    [_send_batch] returned), every record is sent or confirmed: the sender
    finds nothing to select, and a further cycle opens no connection and
    changes nothing. *)
Theorem cycle_leaves_nothing_to_send (s : System) (smtp smtp' : SMTP)
    (now now' : Q) :
  sender s = Sleeping ->
  let s1 := _batch_sender_turn smtp now s in
  sender s1 = Sleeping ->
  select_batch (worker s1) = []
  /\ run s1 [EvWake; EvSendEnd smtp' now'] = (s1, [OutNone; OutNone]).
Proof.
  intros Hsl s1 Hsl1.
  assert (select_batch (worker s1) = []) as Hnone.
  { revert Hsl1. subst s1. unfold _batch_sender_turn, wake. rewrite Hsl.
    destruct (select_batch (worker s)) as [|item batch] eqn:Hsel.
    - unfold send_end. by rewrite Hsl.
    - rewrite (send_end_Sending smtp now _ (item :: batch)) by done.
      cbn [sender worker].
      destruct (returned _); [intros _|done]. cbn [worker].
      unfold select_batch. cbn [heap _status]. apply filter_none.
      intros [e l] Hin. unfold unsent. cbn [snd].
      set (h := heap (worker s)).
      destruct (mark_batch_lookup now (item :: batch) h l)
        as [[-> _]|(r & r' & Hr & Hr' & _ & Hconf)]; [done|].
      rewrite Hr'.
      destruct (sent r) eqn:Hs; [|destruct (confirmed r) eqn:Hcr].
      + destruct (mark_batch_sent now (item :: batch) h l r Hr)
          as (r1 & Hr1 & _ & Hs1).
        rewrite Hr' in Hr1. injection Hr1 as <-.
        by rewrite Hs1.
      + rewrite Hconf. apply andb_false_r.
      + assert (In (e, l) (select_batch (worker s))) as Hb.
        { apply select_batch_spec. split; [done|]. by exists r. }
        rewrite Hsel in Hb.
        destruct (mark_batch_marks now (item :: batch) h e l Hb)
          as (r1 & Hr1 & Hs1 & _); [by eapply lookup_lt_Some|].
        rewrite Hr' in Hr1. injection Hr1 as <-. by rewrite Hs1. }
  split; [done|].
  cbn [run step fst snd]. unfold wake. rewrite Hsl1, Hnone.
  unfold send_end. by rewrite Hsl1.
Qed.

Lemma cycle_leaves_nothing_to_send_witness :
  let s1 := _batch_sender_turn smtp_second_fails 10%Q two_unsent in
  sender two_unsent = Sleeping
  /\ sender s1 = Sleeping
  /\ select_batch (worker s1) = []
  /\ run s1 [EvWake; EvSendEnd smtp_ok 20%Q] = (s1, [OutNone; OutNone]).
Proof.
  split; [reflexivity|]. split; [reflexivity|].
  apply (cycle_leaves_nothing_to_send two_unsent smtp_second_fails smtp_ok
           10%Q 20%Q); reflexivity.
Defined.
